(** * Sparse matrix (dsa/sparse_matrix/code/src/sparse_matrix.py)

    A shallow embedding of the [SparseMatrix] class and a verification of
    its specification.

    Modelling conventions.
    - Python [int] is [Z] (unbounded).  CPython's configurable limit on the
      number of digits converted by [int()] and [str()] is not modelled.
    - Python [str] is [list ascii]: the decoded text, one element per code
      point, restricted to the code points U+0000..U+00FF.  The classes
      [str.isspace] and [str.isdigit] are the ones Python has on that range
      (so the superscripts U+00B2, U+00B3, U+00B9 are digits for [isdigit]
      although [int()] refuses them).
    - A Python exception is its class together with its message.
    - The nested dictionary [matrix_data] is a [gmap Z (gmap Z Z)].  The
      code never observes the iteration order of a dictionary (results are
      read through [get_element], output goes through [sorted]), so the
      order in which [map_to_list] enumerates is immaterial.
    - Objects live in a heap of [SparseMatrix] records addressed by
      locations; a method that mutates [self] is a function on the record
      ([set_element]), lifted to the heap by [call]. *)

From Stdlib Require Import ZArith Ascii String List Lia.
From stdpp Require Import base option list list_numbers sorting gmap strings.

Local Open Scope Z_scope.

(* ===================================================================== *)
(** * Python built-ins used by the program                                *)
(* ===================================================================== *)

Abbreviation str := (list ascii).

(** String literal. *)
Definition lit (s : string) : str := list_ascii_of_string s.

Definition LF : ascii := ascii_of_nat 10.
Definition CR : ascii := ascii_of_nat 13.

Definition code (c : ascii) : Z := Z.of_N (N_of_ascii c).

(** [c.isspace()] for a code point below 256. *)
Definition isspace (c : ascii) : bool :=
  let n := code c in
  ((9 <=? n) && (n <=? 13)) || ((28 <=? n) && (n <=? 32))
  || (n =? 133) || (n =? 160).

(** [c.isdigit()] for a code point below 256. *)
Definition isdigit_char (c : ascii) : bool :=
  let n := code c in
  ((48 <=? n) && (n <=? 57)) || (n =? 178) || (n =? 179) || (n =? 185).

(** The characters [int()] reads as decimal digits (below 256). *)
Definition is_decimal (c : ascii) : bool :=
  let n := code c in (48 <=? n) && (n <=? 57).

(** [s.isdigit()]: non-empty and every character a digit. *)
Definition isdigit (s : str) : bool :=
  negb (bool_decide (s = [])) && forallb isdigit_char s.

Fixpoint lstrip (s : str) : str :=
  match s with
  | c :: s' => if isspace c then lstrip s' else s
  | [] => []
  end.

Definition rstrip (s : str) : str := rev (lstrip (rev s)).

(** [s.strip()] *)
Definition strip (s : str) : str := rstrip (lstrip s).

(** [s.startswith(p)] *)
Fixpoint startswith (s p : str) : bool :=
  match p, s with
  | [], _ => true
  | a :: p', b :: s' => Ascii.eqb a b && startswith s' p'
  | _ :: _, [] => false
  end.

(** [s.endswith(p)] *)
Definition endswith (s p : str) : bool := startswith (rev s) (rev p).

(** [needle in hay] on strings. *)
Fixpoint contains (hay needle : str) : bool :=
  startswith hay needle ||
  match hay with
  | [] => false
  | _ :: hay' => contains hay' needle
  end.

(** [s.split(sep)] for a one-character separator. *)
Fixpoint split (sep : ascii) (s : str) : list str :=
  match s with
  | [] => [[]]
  | c :: s' =>
      if Ascii.eqb c sep then [] :: split sep s'
      else match split sep s' with
           | w :: ws => (c :: w) :: ws
           | [] => [[c]]
           end
  end.

(** [s[1:-1]] *)
Definition slice_1_m1 (s : str) : str := take (length s - 2)%nat (drop 1 s).

(** [f.readlines()] of a file opened in text mode: universal newlines
    ("\r\n" and "\r" read as "\n"), each line keeps its terminator. *)
Fixpoint readlines (s : str) : list str :=
  match s with
  | [] => []
  | c :: s' =>
      if Ascii.eqb c LF then [LF] :: readlines s'
      else if Ascii.eqb c CR then
        match s' with
        | c' :: s'' => if Ascii.eqb c' LF then [LF] :: readlines s''
                       else [LF] :: readlines s'
        | [] => [[LF]]
        end
      else match readlines s' with
           | l :: ls => (c :: l) :: ls
           | [] => [[c]]
           end
  end.

(** Decimal rendering of an integer, as [str(n)] and [f"{n}"] give it. *)
Definition digit_char (d : Z) : ascii := ascii_of_N (Z.to_N (48 + d)).

Fixpoint digits_le (fuel : nat) (n : Z) : str :=
  match fuel with
  | O => []
  | S fuel' =>
      digit_char (n mod 10) ::
      (if n <? 10 then [] else digits_le fuel' (n / 10))
  end.

Definition str_of_nonneg (n : Z) : str := rev (digits_le (S (Z.to_nat n)) n).

Definition str_of_Z (n : Z) : str :=
  if n <? 0 then lit "-" ++ str_of_nonneg (- n) else str_of_nonneg n.

(** Exceptions: class and message. *)
Inductive exn : Type :=
  | ValueError (msg : str)
  | IndexError (msg : str)
  | TypeError (msg : str)
  | FileNotFoundError (msg : str)
  | ReferenceError (msg : str).

(** [str(e)] *)
Definition str_of_exn (e : exn) : str :=
  match e with
  | ValueError m | IndexError m | TypeError m
  | FileNotFoundError m | ReferenceError m => m
  end.

Inductive result (A : Type) : Type :=
  | OK (a : A)
  | Raise (e : exn).
Arguments OK {A} a.
Arguments Raise {A} e.

Global Instance result_ret : MRet result := λ A x, OK x.
Global Instance result_bind : MBind result := λ A B f m,
  match m with
  | OK a => f a
  | Raise e => Raise e
  end.
Global Instance result_fmap : FMap result := λ A B f m,
  match m with
  | OK a => OK (f a)
  | Raise e => Raise e
  end.

(** Value of a string of decimal digits, most significant first. *)
Definition digits_value (s : str) : Z :=
  foldl (λ acc c, 10 * acc + (code c - 48)) 0 s.

Definition invalid_literal (s : str) : exn :=
  ValueError (lit "invalid literal for int() with base 10: '" ++ s ++ lit "'").

(** CPython converts between [int] and [str] up to 4300 digits only (the
    default of [sys.get_int_max_str_digits()]) and raises [ValueError]
    beyond. *)
Definition int_max_str_digits : nat := 4300.

(** The least absolute value [str()] refuses: 10 to the power 4300. *)
Definition max_str_value : Z := 10 ^ Z.of_nat int_max_str_digits.

Definition exceeds_limit_int (digits : nat) : exn :=
  ValueError
    (lit "Exceeds the limit (4300 digits) for integer string conversion: value has "
     ++ str_of_Z (Z.of_nat digits)
     ++ lit " digits; use sys.set_int_max_str_digits() to increase the limit").

Definition exceeds_limit_str : exn :=
  ValueError
    (lit "Exceeds the limit (4300 digits) for integer string conversion; use sys.set_int_max_str_digits() to increase the limit").

(** The length of the run of decimal digits a text starts with. *)
Fixpoint decimal_run (s : str) : nat :=
  match s with
  | c :: s' => if is_decimal c then S (decimal_run s') else O
  | [] => O
  end.

(** [int(s)] on the strings the program passes to it: an optional sign and
    then characters for which [isdigit] holds, with no surrounding
    whitespace.  The digits are counted first, and more than 4300 of them
    raise [ValueError]; then digits outside '0'..'9' raise [ValueError]. *)
Definition py_int (s : str) : result Z :=
  let unsigned (ds : str) : result Z :=
    if (int_max_str_digits <? decimal_run ds)%nat
    then Raise (exceeds_limit_int (decimal_run ds))
    else if negb (bool_decide (ds = [])) && forallb is_decimal ds
    then OK (digits_value ds) else Raise (invalid_literal s) in
  match s with
  | c :: ds =>
      if Ascii.eqb c "+" then unsigned ds
      else if Ascii.eqb c "-" then Z.opp <$> unsigned ds
      else unsigned s
  | [] => Raise (invalid_literal s)
  end.

(** [str(n)] and [f"{n}"]: the decimal rendering, refused for integers of
    more than 4300 digits. *)
Definition py_str (n : Z) : result str :=
  if max_str_value <=? Z.abs n then Raise exceeds_limit_str
  else OK (str_of_Z n).

(* ===================================================================== *)
(** * The class [SparseMatrix]                                            *)
(* ===================================================================== *)

(** The attributes of an instance. *)
Record SparseMatrix : Type := mkSparseMatrix {
  matrix_data : gmap Z (gmap Z Z);
  file_declared_max_row : Z;
  file_declared_max_col : Z;
  rows : Z;
  cols : Z
}.

Definition set_matrix_data (self : SparseMatrix) (d : gmap Z (gmap Z Z)) :=
  mkSparseMatrix d (file_declared_max_row self) (file_declared_max_col self)
                 (rows self) (cols self).

(** A file system: the text stored under each path. *)
Abbreviation filesystem := (gmap str str).

(** An argument of the constructor, which dispatches on its class. *)
Inductive arg : Type :=
  | Str (s : str)
  | Int (n : Z)
  | NoneArg.

Inductive dim_type : Type := row | col.

(** ** The exceptions the class raises, by the failure they stand for *)

Definition wrong_format (reason : str) : exn :=
  ValueError (lit "Input file has wrong format: " ++ reason).

Definition dim_name (d : dim_type) : str :=
  match d with row => lit "row" | col => lit "col" end.

Definition InvalidDimensions : exn :=
  ValueError (lit "Matrix dimension counts must be non-negative.").
Definition InvalidArguments : exn :=
  TypeError (lit "Invalid arguments for SparseMatrix constructor.").
Definition FileNotFound (file_path : str) : exn :=
  FileNotFoundError (lit "Input file not found: " ++ file_path).
Definition DuplicateHeader (d : dim_type) : exn :=
  wrong_format (lit "'" ++ dim_name d ++ lit "s' specified multiple times.").
(** Raised by [_validate_and_set_dimension]. *)
Definition MalformedHeader (d : dim_type) : exn :=
  wrong_format (lit "'" ++ dim_name d ++ lit "s' value is not an integer").
(** Raised by the handler around the header code of [_parse_file]. *)
Definition MalformedHeaderLine (d : dim_type) (line_num : Z) : exn :=
  wrong_format (lit "Malformed '" ++ dim_name d ++ lit "s' entry on line "
                ++ str_of_Z (line_num + 1)).
Definition HeaderOutOfRange (d : dim_type) : exn :=
  wrong_format (lit "'" ++ dim_name d ++ lit "s' value cannot be less than -1").
Definition HeaderMissing : exn :=
  wrong_format (lit "Matrix dimensions must be defined before data entries.").
Definition MalformedEntry (line_num : Z) : exn :=
  wrong_format (lit "Invalid data entry on line " ++ str_of_Z (line_num + 1)).
Definition EntryOutOfBounds (r c : Z) : exn :=
  wrong_format (lit "Data entry (" ++ str_of_Z r ++ lit "," ++ str_of_Z c
                ++ lit ") out of bounds.").
Definition UnrecognizedLine (line_num : Z) : exn :=
  wrong_format (lit "Unrecognized line format on line "
                ++ str_of_Z (line_num + 1)).
Definition MissingHeaders : exn :=
  wrong_format (lit "Missing 'rows' or 'cols' definition.").
Definition IndexOutOfBounds : exn :=
  IndexError (lit "Element index out of bounds.").
Definition DimensionMismatch : exn :=
  ValueError (lit "Matrices must have the same dimensions for this operation.").
Definition IncompatibleDimensions : exn :=
  ValueError (lit "Incompatible dimensions for matrix multiplication.").

(** ** Element access *)

Definition in_bounds (self : SparseMatrix) (curr_row curr_col : Z) : bool :=
  (0 <=? curr_row) && (curr_row <? rows self)
  && (0 <=? curr_col) && (curr_col <? cols self).

Definition get_element (self : SparseMatrix) (curr_row curr_col : Z)
  : result Z :=
  if negb (in_bounds self curr_row curr_col) then Raise IndexOutOfBounds
  else OK (default 0 (default ∅ (matrix_data self !! curr_row) !! curr_col)).

(** [value] is a [Z], so the [isinstance(value, int)] test always passes. *)
Definition set_element (self : SparseMatrix) (curr_row curr_col value : Z)
  : result SparseMatrix :=
  if negb (in_bounds self curr_row curr_col) then Raise IndexOutOfBounds
  else if value =? 0 then
    match matrix_data self !! curr_row with
    | Some cols_data =>
        if bool_decide (is_Some (cols_data !! curr_col)) then
          let cols_data' := delete curr_col cols_data in
          if bool_decide (cols_data' = ∅)
          then OK (set_matrix_data self (delete curr_row (matrix_data self)))
          else OK (set_matrix_data self
                     (<[curr_row := cols_data']> (matrix_data self)))
        else OK self
    | None => OK self
    end
  else
    let cols_data := default ∅ (matrix_data self !! curr_row) in
    OK (set_matrix_data self
          (<[curr_row := <[curr_col := value]> cols_data]> (matrix_data self))).

(** ** Parsing *)

Definition _is_valid_int (s_val : str) : bool :=
  let s_val := strip s_val in
  match s_val with
  | [] => false
  | c0 :: rest =>
      if Ascii.eqb c0 "+" || Ascii.eqb c0 "-"
      then (1 <? length s_val)%nat && isdigit rest
      else isdigit s_val
  end.

(** The assignments that end [_validate_and_set_dimension]. *)
Definition set_dimension (self : SparseMatrix) (dim : dim_type)
    (declared_max : Z) : SparseMatrix :=
  match dim with
  | row => mkSparseMatrix (matrix_data self) declared_max
             (file_declared_max_col self) (declared_max + 1) (cols self)
  | col => mkSparseMatrix (matrix_data self)
             (file_declared_max_row self) declared_max
             (rows self) (declared_max + 1)
  end.

Definition _validate_and_set_dimension (self : SparseMatrix) (val_str : str)
    (line_num : Z) (raw_line : str) (dim : dim_type) : result SparseMatrix :=
  if negb (_is_valid_int val_str) then Raise (MalformedHeader dim)
  else
    declared_max ← py_int val_str;
    if declared_max <? -1 then Raise (HeaderOutOfRange dim)
    else
      OK (set_dimension self dim declared_max).

(** The state of the loop of [_parse_file]: the object under construction
    and the two flags. *)
Record parse_state : Type := mkParseState {
  self_of : SparseMatrix;
  parsed_rows : bool;
  parsed_cols : bool
}.

Definition parsed (d : dim_type) (st : parse_state) : bool :=
  match d with row => parsed_rows st | col => parsed_cols st end.

Definition set_parsed (d : dim_type) (m : SparseMatrix) (st : parse_state) :=
  match d with
  | row => mkParseState m true (parsed_cols st)
  | col => mkParseState m (parsed_rows st) true
  end.

(** The branches for "rows=" and "cols=", which differ in the dimension
    only.  The handler re-raises what carries the format prefix and
    replaces any other [IndexError] or [ValueError]. *)
Definition parse_header (d : dim_type) (st : parse_state) (line_num : Z)
    (raw_line line : str) : result parse_state :=
  if parsed d st then Raise (DuplicateHeader d)
  else
    let body : result SparseMatrix :=
      val_str ← match split "=" line !! 1%nat with
                | Some s => OK (strip s)
                | None => Raise (IndexError (lit "list index out of range"))
                end;
      _validate_and_set_dimension (self_of st) val_str line_num raw_line d in
    match body with
    | OK m => OK (set_parsed d m st)
    | Raise e =>
        match e with
        | IndexError _ | ValueError _ =>
            if contains (str_of_exn e) (lit "Input file has wrong format")
            then Raise e
            else Raise (MalformedHeaderLine d line_num)
        | _ => Raise e
        end
    end.

Definition parse_entry (st : parse_state) (line_num : Z) (line : str)
  : result parse_state :=
  if negb (parsed_rows st) || negb (parsed_cols st) then Raise HeaderMissing
  else
    let parts := strip <$> split "," (strip (slice_1_m1 line)) in
    if negb (length parts =? 3)%nat || negb (forallb _is_valid_int parts)
    then Raise (MalformedEntry line_num)
    else
      match parts with
      | [pr; pc; pv] =>
          r ← py_int pr; c ← py_int pc; v ← py_int pv;
          if negb ((0 <=? r) && (r <? rows (self_of st))
                   && (0 <=? c) && (c <? cols (self_of st)))
          then Raise (EntryOutOfBounds r c)
          else
            m ← set_element (self_of st) r c v;
            OK (mkParseState m (parsed_rows st) (parsed_cols st))
      | _ => Raise (MalformedEntry line_num)
      end.

(** The body of the loop over the lines. *)
Definition parse_line (st : parse_state) (line_num : Z) (raw_line : str)
  : result parse_state :=
  let line := strip raw_line in
  if bool_decide (line = []) then OK st
  else if startswith line (lit "rows=") then
    parse_header row st line_num raw_line line
  else if startswith line (lit "cols=") then
    parse_header col st line_num raw_line line
  else if startswith line (lit "(") && endswith line (lit ")") then
    parse_entry st line_num line
  else Raise (UnrecognizedLine line_num).

(** [for line_num, raw_line in enumerate(lines)], from [line_num]. *)
Fixpoint parse_lines (st : parse_state) (line_num : Z) (lines : list str)
  : result parse_state :=
  match lines with
  | [] => OK st
  | raw_line :: lines' =>
      st' ← parse_line st line_num raw_line;
      parse_lines st' (line_num + 1) lines'
  end.

Definition _parse_file (self : SparseMatrix) (fs : filesystem)
    (file_path : str) : result SparseMatrix :=
  match fs !! file_path with
  | None => Raise (FileNotFound file_path)
  | Some content =>
      let lines := readlines content in
      let self := mkSparseMatrix (matrix_data self) (-2) (-2)
                                 (rows self) (cols self) in
      st ← parse_lines (mkParseState self false false) 0 lines;
      if negb (parsed_rows st) || negb (parsed_cols st)
      then Raise MissingHeaders
      else OK (self_of st)
  end.

(** ** The constructor *)

Definition __init__ (fs : filesystem) (source num_cols : arg)
  : result SparseMatrix :=
  let self := mkSparseMatrix ∅ (-1) (-1) 0 0 in
  match source, num_cols with
  | Str file_path, _ => _parse_file self fs file_path
  | Int num_rows_count, Int num_cols_count =>
      if (num_rows_count <? 0) || (num_cols_count <? 0)
      then Raise InvalidDimensions
      else OK (mkSparseMatrix (matrix_data self)
                 (num_rows_count - 1) (num_cols_count - 1)
                 num_rows_count num_cols_count)
  | _, _ => Raise InvalidArguments
  end.

(** ** Saving *)

(** [sorted(d.keys())] *)
Definition sorted_keys {V} (d : gmap Z V) : list Z :=
  merge_sort Z.le (map_to_list d).*1.



(** The argument of the [f.write] call for a header, an f-string. *)
Definition header_text (keyword : str) (declared_max : Z) : result str :=
  s ← py_str declared_max; OK (keyword ++ s ++ [LF]).

(** The argument of the [f.write] call for an entry, an f-string whose
    fields are rendered from left to right. *)
Definition entry_text (r c value : Z) : result str :=
  sr ← py_str r; sc ← py_str c; sv ← py_str value;
  OK (lit "(" ++ sr ++ lit ", " ++ sc ++ lit ", " ++ sv ++ lit ")" ++ [LF]).

(** The arguments of the successive [f.write] calls of [save_to_file]. *)
Definition save_writes (self : SparseMatrix) : list (result str) :=
  header_text (lit "rows=") (rows self - 1)
  :: header_text (lit "cols=") (cols self - 1)
  :: (r ← sorted_keys (matrix_data self);
      let cols_data := default ∅ (matrix_data self !! r) in
      c ← sorted_keys cols_data;
      let value := default 0 (cols_data !! c) in
      if negb (value =? 0) then [entry_text r c value] else []).

(** Writing until an argument fails to evaluate: what has been written
    so far, and how the writing ended. *)
Fixpoint write_all (writes : list (result str)) (written : str)
  : str * result unit :=
  match writes with
  | [] => (written, OK tt)
  | OK s :: writes' => write_all writes' (written ++ s)
  | Raise e :: _ => (written, Raise e)
  end.

(** [save_to_file]: the file is opened for writing, which empties it, and
    on leaving the [with] block, also by an exception, it holds what was
    written. *)
Definition save_to_file (self : SparseMatrix) (file_path : str)
    (fs : filesystem) : filesystem * result unit :=
  let '(content, r) := write_all (save_writes self) [] in
  (<[file_path := content]> fs, r).

(* ===================================================================== *)
(** * Objects, references and the binary operations                       *)
(* ===================================================================== *)

Abbreviation loc := positive.

(** The state a program runs in: the live objects and the files. *)
Record world : Type := mkWorld {
  objects : gmap loc SparseMatrix;
  files : filesystem
}.

(** A computation changes the world and returns or raises; what it did to
    the world before raising stays done. *)
Definition M (A : Type) : Type := world → world * result A.

Global Instance M_ret : MRet M := λ A x w, (w, OK x).
Global Instance M_bind : MBind M := λ A B f m w,
  match m w with
  | (w', OK a) => f a w'
  | (w', Raise e) => (w', Raise e)
  end.

Definition raise {A} (e : exn) : M A := λ w, (w, Raise e).

(** Reading through a reference.  Python has no dangling references; the
    failure branch is there for totality only. *)
Definition deref (l : loc) : M SparseMatrix := λ w,
  match objects w !! l with
  | Some m => (w, OK m)
  | None => (w, Raise (ReferenceError (lit "no such object")))
  end.

(** Calling a method that reads [self]. *)
Definition query {A} (l : loc) (method : SparseMatrix → result A) : M A :=
  m ← deref l;
  match method m with
  | OK a => mret a
  | Raise e => raise e
  end.

Definition store (l : loc) (m : SparseMatrix) : M unit := λ w,
  (mkWorld (<[l := m]> (objects w)) (files w), OK tt).

(** Calling a method that mutates [self]. *)
Definition call (l : loc) (method : SparseMatrix → result SparseMatrix)
  : M unit :=
  m ← deref l;
  match method m with
  | OK m' => store l m'
  | Raise e => raise e
  end.

(** [SparseMatrix(source, num_cols)]: a new object. *)
Definition new (source num_cols : arg) : M loc := λ w,
  match __init__ (files w) source num_cols with
  | OK m =>
      let l := fresh (dom (objects w)) in
      (mkWorld (<[l := m]> (objects w)) (files w), OK l)
  | Raise e => (w, Raise e)
  end.

Fixpoint for_each {A} (l : list A) (body : A → M unit) : M unit :=
  match l with
  | [] => mret tt
  | x :: l' => body x;; for_each l' body
  end.

(** The operands are [SparseMatrix] references by typing, so the
    [isinstance] tests pass. *)
Definition operate (self other_matrix : loc) (operation : Z → Z → Z)
  : M loc :=
  s ← deref self;
  o ← deref other_matrix;
  if negb (rows s =? rows o) || negb (cols s =? cols o)
  then raise DimensionMismatch
  else
    result_matrix ← new (Int (rows s)) (Int (cols s));
    s ← deref self;
    for_each (map_to_list (matrix_data s)) (λ '(r, cols_data),
      for_each (map_to_list cols_data) (λ '(c, val),
        call result_matrix (λ m, set_element m r c val)));;
    o ← deref other_matrix;
    for_each (map_to_list (matrix_data o)) (λ '(r, cols_data),
      for_each (map_to_list cols_data) (λ '(c, val),
        current_val ← query result_matrix (λ m, get_element m r c);
        call result_matrix
             (λ m, set_element m r c (operation current_val val))));;
    mret result_matrix.

Definition add (self other_matrix : loc) : M loc :=
  operate self other_matrix (λ x y, x + y).

Definition subtract (self other_matrix : loc) : M loc :=
  operate self other_matrix (λ x y, x - y).

Definition multiply (self other_matrix : loc) : M loc :=
  s ← deref self;
  o ← deref other_matrix;
  if negb (cols s =? rows o) then raise IncompatibleDimensions
  else
    result_matrix ← new (Int (rows s)) (Int (cols o));
    s ← deref self;
    for_each (map_to_list (matrix_data s)) (λ '(r1, row_data1),
      for_each (map_to_list row_data1) (λ '(c1, val1),
        o ← deref other_matrix;
        match matrix_data o !! c1 with
        | Some row_data2 =>
            for_each (map_to_list row_data2) (λ '(c2, val2),
              current_val ← query result_matrix (λ m, get_element m r1 c2);
              call result_matrix
                   (λ m, set_element m r1 c2 (current_val + val1 * val2)))
        | None => mret tt
        end));;
    mret result_matrix.

(* ===================================================================== *)
(** * Stored entries and the representation invariant                     *)
(* ===================================================================== *)

(** The entry stored under [(r, c)], if any. *)
Definition stored (d : gmap Z (gmap Z Z)) (r c : Z) : option Z :=
  d !! r ≫= (λ cols_data, cols_data !! c).

(** What [set_element] leaves in [matrix_data] when the index is in
    bounds. *)
Definition set_data (d : gmap Z (gmap Z Z)) (r c value : Z)
  : gmap Z (gmap Z Z) :=
  if value =? 0 then
    match d !! r with
    | Some cols_data =>
        if bool_decide (is_Some (cols_data !! c)) then
          if bool_decide (delete c cols_data = ∅) then delete r d
          else <[r := delete c cols_data]> d
        else d
    | None => d
    end
  else <[r := <[c := value]> (default ∅ (d !! r))]> d.

(** The two invariants of the data model. *)
Definition no_zero_stored (m : SparseMatrix) : Prop :=
  ∀ r c, stored (matrix_data m) r c ≠ Some 0.

Definition keys_in_bounds (m : SparseMatrix) : Prop :=
  ∀ r c v, stored (matrix_data m) r c = Some v →
           0 ≤ r < rows m ∧ 0 ≤ c < cols m.

(** Well-formed instances: the two invariants, non-negative dimensions,
    and no row dictionary left empty. *)
Record wf (m : SparseMatrix) : Prop := mkWf {
  wf_rows : 0 ≤ rows m;
  wf_cols : 0 ≤ cols m;
  wf_bounds : keys_in_bounds m;
  wf_nonzero : no_zero_stored m;
  wf_no_empty_row : ∀ r, matrix_data m !! r ≠ Some ∅
}.

(** The value [get_element] reads at an in-bounds position. *)
Definition cell (m : SparseMatrix) (r c : Z) : Z :=
  default 0 (stored (matrix_data m) r c).

(** The stored entries as triples, in the order the nested loops over
    [items()] visit them. *)
Definition entries (d : gmap Z (gmap Z Z)) : list (Z * Z * Z) :=
  '(r, cols_data) ← map_to_list d;
  (λ '(c, v), (r, c, v)) <$> map_to_list cols_data.

(** One round of "read the current value, combine, write back". *)
Definition update (f : Z → Z → Z) (m : SparseMatrix) (e : Z * Z * Z)
  : SparseMatrix :=
  let '(r, c, v) := e in
  set_matrix_data m (set_data (matrix_data m) r c (f (cell m r c) v)).

(** The world after the object at [l] has become [m]. *)
Definition put (l : loc) (m : SparseMatrix) (w : world) : world :=
  mkWorld (<[l := m]> (objects w)) (files w).

(** Finite sums. *)
Definition Zsum {A} (f : A → Z) (l : list A) : Z :=
  foldr (λ a b, f a + b) 0 l.

(** The object the constructor builds from non-negative dimensions. *)
Definition empty_matrix (n k : Z) : SparseMatrix :=
  mkSparseMatrix ∅ (n - 1) (k - 1) n k.

(** The object [operate] returns for operands of equal dimensions: the
    entries of the first operand copied into an empty matrix, then every
    entry of the second combined in. *)
Definition operate_result (A B : SparseMatrix) (op : Z → Z → Z)
  : SparseMatrix :=
  foldl (update op)
        (foldl (update (λ _ v, v)) (empty_matrix (rows A) (cols A))
               (entries (matrix_data A)))
        (entries (matrix_data B)).

(** ** Vocabulary of the statements *)

(** [m] run in [w] returns a reference to a new object satisfying [P] and
    changes nothing else. *)
Definition returns_new (m : M loc) (w : world) (P : SparseMatrix → Prop)
  : Prop :=
  ∃ l R, m w = (put l R w, OK l) ∧ objects w !! l = None ∧ P R.

(** [R] has the dimensions of [A] and holds [op] of the operands' values
    at every in-bounds position. *)
Definition pointwise (op : Z → Z → Z) (A B R : SparseMatrix) : Prop :=
  rows R = rows A ∧ cols R = cols A ∧
  ∀ r c, 0 ≤ r < rows A → 0 ≤ c < cols A →
    ∃ x y, get_element A r c = OK x ∧ get_element B r c = OK y ∧
           get_element R r c = OK (op x y).

(** A text file given by its lines. *)
Definition text (lines : list string) : str :=
  concat ((λ l, lit l ++ [LF]) <$> lines).

(** The objects of the end-to-end examples. *)
Definition matrix_of_entries (n k : Z) (L : list (Z * Z * Z)) : SparseMatrix :=
  foldl (update (λ _ v, v)) (empty_matrix n k) L.

(** Computations that change no object but the one at [l], which they
    keep alive, and no file. *)
Definition only_writes (l : loc) {A} (m : M A) : Prop :=
  ∀ w, files (m w).1 = files w
       ∧ (∀ l', l' ≠ l → objects (m w).1 !! l' = objects w !! l')
       ∧ (is_Some (objects w !! l) → is_Some (objects (m w).1 !! l)).

(** Computations that can only return [l]. *)
Definition yields (l : loc) (m : M loc) : Prop :=
  ∀ w x, (m w).2 = OK x → x = l.

(** What a binary operation [m] on the operands [a] and [b] may do to the
    world [w]: no object of [w] and no file changes, and a reference it
    returns is to an object that [w] did not have. *)
Definition leaves_operands (m : M loc) (w : world) (a b : loc) : Prop :=
  objects (m w).1 !! a = objects w !! a
  ∧ objects (m w).1 !! b = objects w !! b
  ∧ (∀ l', is_Some (objects w !! l') →
           objects (m w).1 !! l' = objects w !! l')
  ∧ files (m w).1 = files w
  ∧ (∀ l, (m w).2 = OK l →
          l ≠ a ∧ l ≠ b ∧ objects w !! l = None
          ∧ is_Some (objects (m w).1 !! l)).

(** The products [multiply] accumulates, in the order of its loops: one
    for each stored entry [(r1, c1)] of the first operand and each stored
    entry [(c1, c2)] of the second. *)
Definition products (A B : SparseMatrix) : list (Z * Z * Z) :=
  '(r1, c1, val1) ← entries (matrix_data A);
  (λ '(c2, val2), (r1, c2, val1 * val2))
    <$> map_to_list (default ∅ (matrix_data B !! c1)).

(** The object [multiply] returns for operands of compatible dimensions. *)
Definition multiply_result (A B : SparseMatrix) : SparseMatrix :=
  foldl (update Z.add) (empty_matrix (rows A) (cols B)) (products A B).

(** The sum over [k] in [[0, cols A)] of [A.get(r, k) * B.get(k, c)]. *)
Definition dot_product (A B : SparseMatrix) (r c : Z) : result Z :=
  foldr (λ k acc,
           x ← get_element A r k;
           y ← get_element B k c;
           s ← acc;
           mret (x * y + s))
        (OK 0) (seqZ 0 (cols A)).

(** [R] has the dimensions of the product and holds the dot products. *)
Definition is_product (A B R : SparseMatrix) : Prop :=
  rows R = rows A ∧ cols R = cols B ∧
  ∀ r c, 0 ≤ r < rows A → 0 ≤ c < cols B →
    ∃ s, dot_product A B r c = OK s ∧ get_element R r c = OK s.

(** The operands of the end-to-end examples, and a world holding them. *)
Definition A_mul : SparseMatrix := matrix_of_entries 2 2 [(0, 0, 1); (0, 1, 2)].
Definition B_mul : SparseMatrix := matrix_of_entries 2 2 [(0, 0, 3); (1, 0, 4)].
Definition w_mul : world :=
  mkWorld {[1%positive := A_mul; 2%positive := B_mul]} ∅.

Definition A_add : SparseMatrix := matrix_of_entries 2 2 [(0, 0, 5)].
Definition B_add : SparseMatrix := matrix_of_entries 2 2 [(0, 0, 3)].
Definition w_add : world :=
  mkWorld {[1%positive := A_add; 2%positive := B_add]} ∅.

(** ** Vocabulary of the statements about parsing *)

Definition dimension (d : dim_type) (m : SparseMatrix) : Z :=
  match d with row => rows m | col => cols m end.

(** The state in which [__init__] starts [_parse_file]. *)
Definition initial_state : parse_state :=
  mkParseState (mkSparseMatrix ∅ (-2) (-2) 0 0) false false.

(** [raw_line] is a data line whose three fields read [r], [c], [v]. *)
Definition data_line (raw_line : str) (r c v : Z) : Prop :=
  let line := strip raw_line in
  startswith line (lit "(") && endswith line (lit ")") = true
  ∧ ∃ pr pc pv,
      strip <$> split "," (strip (slice_1_m1 line)) = [pr; pc; pv]
      ∧ forallb _is_valid_int [pr; pc; pv] = true
      ∧ py_int pr = OK r ∧ py_int pc = OK c ∧ py_int pv = OK v.

(** The exceptions [int(s)] can raise. *)
Inductive int_failure (s : str) : exn → Prop :=
  | if_invalid : int_failure s (invalid_literal s)
  | if_exceeds n : int_failure s (exceeds_limit_int n).

(** The exceptions the loop body can raise at line index [line_num]. *)
Inductive line_failure (line_num : Z) : exn → Prop :=
  | lf_duplicate d : line_failure line_num (DuplicateHeader d)
  | lf_malformed_header d : line_failure line_num (MalformedHeader d)
  | lf_header_range d : line_failure line_num (HeaderOutOfRange d)
  | lf_malformed_header_line d :
      line_failure line_num (MalformedHeaderLine d line_num)
  | lf_header_missing : line_failure line_num HeaderMissing
  | lf_malformed_entry : line_failure line_num (MalformedEntry line_num)
  | lf_invalid_literal s : line_failure line_num (invalid_literal s)
  | lf_exceeds_limit n : line_failure line_num (exceeds_limit_int n)
  | lf_entry_bounds r c : line_failure line_num (EntryOutOfBounds r c)
  | lf_unrecognized : line_failure line_num (UnrecognizedLine line_num).

(** The message of [e] ends by naming the line [line]. *)
Definition names_line (e : exn) (line : Z) : Prop :=
  ∃ pre, str_of_exn e = pre ++ lit " on line " ++ str_of_Z line.

(** [e] is a malformed-entry, unrecognized-line or malformed-header-line
    failure. *)
Definition line_numbered (e : exn) : Prop :=
  ∃ j, e = MalformedEntry j ∨ e = UnrecognizedLine j
       ∨ ∃ d, e = MalformedHeaderLine d j.

(** The file [m.txt] holding [content], alone in its file system. *)
Definition load (content : str) : result SparseMatrix :=
  __init__ {[lit "m.txt" := content]} (Str (lit "m.txt")) NoneArg.

(** Loading [content] fails with [e], raised at the 1-based line [line],
    and the decimal numeral of [line] occurs nowhere in the message. *)
Definition fails_without_naming (content : str) (e : exn) (line : Z) : Prop :=
  load content = Raise e
  ∧ (∃ st raw_line,
       parse_lines initial_state 0
         (take (Z.to_nat (line - 1)) (readlines content)) = OK st
       ∧ readlines content !! Z.to_nat (line - 1) = Some raw_line
       ∧ parse_line st (line - 1) raw_line = Raise e)
  ∧ contains (str_of_exn e) (str_of_Z line) = false.

(** The invariant of the loop of [_parse_file]: the object is well-formed
    and holds no entry until both headers have been read. *)
Definition loop_invariant (st : parse_state) : Prop :=
  wf (self_of st)
  ∧ (parsed_rows st && parsed_cols st = false →
     matrix_data (self_of st) = ∅).

(** ** Programs over the interface *)

(** [self.save_to_file(file_path)] through a reference. *)
Definition with_files (f : filesystem → filesystem * result unit) : M unit :=
  λ w, (mkWorld (objects w) (f (files w)).1, (f (files w)).2).

Definition save (l : loc) (file_path : str) : M unit :=
  m ← deref l; with_files (save_to_file m file_path).

(** The operations a caller can perform on the objects. *)
Inductive operation : Type :=
  | OpNew (source num_cols : arg)
  | OpSet (l : loc) (r c value : Z)
  | OpAdd (a b : loc)
  | OpSubtract (a b : loc)
  | OpMultiply (a b : loc)
  | OpSave (l : loc) (file_path : str).

(** The world an operation leaves, whether it returns or raises. *)
Definition run_operation (w : world) (o : operation) : world :=
  match o with
  | OpNew source num_cols => (new source num_cols w).1
  | OpSet l r c value => (call l (λ m, set_element m r c value) w).1
  | OpAdd a b => (add a b w).1
  | OpSubtract a b => (subtract a b w).1
  | OpMultiply a b => (multiply a b w).1
  | OpSave l file_path => (save l file_path w).1
  end.

Definition run_operations (os : list operation) (w : world) : world :=
  foldl run_operation w os.

(** The invariant of the data model. *)
Definition invariant (m : SparseMatrix) : Prop :=
  no_zero_stored m ∧ keys_in_bounds m.

Definition world_wf (w : world) : Prop :=
  ∀ l m, objects w !! l = Some m → wf m.

(** ** Vocabulary of the statements about text *)

(** Only whitespace. *)
Definition all_space (w : str) : bool := forallb isspace w.

(** No character [ch]. *)
Definition lacks (ch : ascii) (s : str) : bool :=
  forallb (λ c, negb (Ascii.eqb c ch)) s.

(** [sep.join(fields)] for a one-character separator. *)
Fixpoint join (sep : ascii) (fields : list str) : str :=
  match fields with
  | [] => []
  | [f] => f
  | f :: fields' => f ++ sep :: join sep fields'
  end.

Definition header_keyword (d : dim_type) : str :=
  match d with row => lit "rows=" | col => lit "cols=" end.

(** Two renderings of one field of a data line: the same token between
    different runs of whitespace. *)
Inductive field_variant : str → str → Prop :=
  | field_padded token wa wb wa' wb' :
      all_space wa = true → all_space wb = true →
      all_space wa' = true → all_space wb' = true →
      lacks "," token = true →
      field_variant (wa ++ token ++ wb) (wa' ++ token ++ wb').

(** Two renderings of one line: whitespace differs at the ends of the
    line, between the '=' of a header and its value, or around the fields
    of a data line. *)
Inductive line_variant : str → str → Prop :=
  | lv_outer s w1 w2 w1' w2' :
      all_space w1 = true → all_space w2 = true →
      all_space w1' = true → all_space w2' = true →
      line_variant (w1 ++ s ++ w2) (w1' ++ s ++ w2')
  | lv_header d value w1 w2 w3 w1' w2' w3' :
      all_space w1 = true → all_space w2 = true → all_space w3 = true →
      all_space w1' = true → all_space w2' = true → all_space w3' = true →
      line_variant (w1 ++ header_keyword d ++ w2 ++ value ++ w3)
                   (w1' ++ header_keyword d ++ w2' ++ value ++ w3')
  | lv_entry fields fields' w1 w2 w1' w2' :
      Forall2 field_variant fields fields' →
      all_space w1 = true → all_space w2 = true →
      all_space w1' = true → all_space w2' = true →
      line_variant
        (w1 ++ lit "(" ++ join "," fields ++ lit ")" ++ w2)
        (w1' ++ lit "(" ++ join "," fields' ++ lit ")" ++ w2').

(** Two renderings of one file: line by line, up to blank lines. *)
Inductive file_variant : list str → list str → Prop :=
  | fv_nil : file_variant [] []
  | fv_line raw raw' ls ls' :
      line_variant raw raw' → file_variant ls ls' →
      file_variant (raw :: ls) (raw' :: ls')
  | fv_blank_l raw ls ls' :
      all_space raw = true → file_variant ls ls' →
      file_variant (raw :: ls) ls'
  | fv_blank_r raw ls ls' :
      all_space raw = true → file_variant ls ls' →
      file_variant ls (raw :: ls').

(** The characters of a decimal numeral. *)
Definition int_char (c : ascii) : bool := is_decimal c || Ascii.eqb c "-".


(** The integers [str()] renders. *)
Definition renderable (n : Z) : Prop := Z.abs n < max_str_value.



(* ===================================================================== *)
(** * Verification                                                        *)
(* ===================================================================== *)

(** ** Element access *)

Lemma in_bounds_spec m r c :
  in_bounds m r c = true ↔ 0 ≤ r < rows m ∧ 0 ≤ c < cols m.
Proof. unfold in_bounds. rewrite !andb_true_iff. lia. Qed.

Lemma get_element_stored m r c :
  in_bounds m r c = true →
  get_element m r c = OK (default 0 (stored (matrix_data m) r c)).
Proof.
  intros Hb. unfold get_element, stored. rewrite Hb. simpl.
  destruct (matrix_data m !! r); simpl; [done|]. by rewrite lookup_empty.
Qed.

Lemma get_element_out m r c :
  in_bounds m r c = false → get_element m r c = Raise IndexOutOfBounds.
Proof. intros Hb. unfold get_element. by rewrite Hb. Qed.

Lemma set_element_in m r c v :
  in_bounds m r c = true →
  set_element m r c v
  = OK (set_matrix_data m (set_data (matrix_data m) r c v)).
Proof.
  intros Hb. unfold set_element, set_data. rewrite Hb. simpl.
  destruct (v =? 0); [|done].
  destruct (matrix_data m !! r) as [cd|]; [|by destruct m].
  repeat case_bool_decide; try done; by destruct m.
Qed.

Lemma set_element_out m r c v :
  in_bounds m r c = false → set_element m r c v = Raise IndexOutOfBounds.
Proof. intros Hb. unfold set_element. by rewrite Hb. Qed.

Lemma stored_set_data d r c v r' c' :
  stored (set_data d r c v) r' c'
  = if decide (r' = r ∧ c' = c)
    then (if decide (v = 0) then None else Some v)
    else stored d r' c'.
Proof.
  unfold set_data, stored.
  destruct (Z.eqb_spec v 0) as [->|Hv].
  - destruct (d !! r) as [cd|] eqn:Hr.
    + case_bool_decide as Hc.
      * case_bool_decide as He.
        -- destruct (decide (r' = r)) as [->|Hne].
           ++ rewrite lookup_delete_eq. simpl.
              case_decide as Hcc; [done|]. rewrite Hr. simpl.
              destruct (decide (c' = c)) as [->|Hc']; [tauto|].
              rewrite <- (lookup_delete_ne cd c c') by done.
              by rewrite He, lookup_empty.
           ++ rewrite lookup_delete_ne by done.
              case_decide; [tauto|done].
        -- destruct (decide (r' = r)) as [->|Hne].
           ++ rewrite lookup_insert_eq. simpl. rewrite Hr. simpl.
              destruct (decide (c' = c)) as [->|Hc'].
              ** rewrite lookup_delete_eq. by case_decide; [|tauto].
              ** rewrite lookup_delete_ne by done. case_decide; [tauto|done].
           ++ rewrite lookup_insert_ne by done. case_decide; [tauto|done].
      * case_decide as Hcc; [|done]. destruct Hcc as [-> ->].
        rewrite Hr. simpl. destruct (cd !! c) eqn:E; [|done].
        exfalso. apply Hc. eauto.
    + case_decide as Hcc; [|done]. destruct Hcc as [-> ->]. by rewrite Hr.
  - destruct (decide (r' = r)) as [->|Hne].
    + rewrite lookup_insert_eq. simpl.
      destruct (decide (c' = c)) as [->|Hc'].
      * rewrite lookup_insert_eq. case_decide; [|tauto]. by case_decide.
      * rewrite lookup_insert_ne by done. case_decide; [tauto|].
        destruct (d !! r); simpl; [done|]. by rewrite lookup_empty.
    + rewrite lookup_insert_ne by done. case_decide; [tauto|done].
Qed.

Lemma set_data_no_empty_row d r c v :
  (∀ r', d !! r' ≠ Some ∅) → ∀ r', set_data d r c v !! r' ≠ Some ∅.
Proof.
  intros Hd r'. unfold set_data.
  destruct (v =? 0).
  - destruct (d !! r) as [cd|] eqn:Hr; [|done].
    case_bool_decide; [|done]. case_bool_decide as He.
    + destruct (decide (r' = r)) as [->|Hne].
      * by rewrite lookup_delete_eq.
      * by rewrite lookup_delete_ne.
    + destruct (decide (r' = r)) as [->|Hne].
      * rewrite lookup_insert_eq. congruence.
      * by rewrite lookup_insert_ne.
  - destruct (decide (r' = r)) as [->|Hne].
    + rewrite lookup_insert_eq. intros [=E].
      apply (f_equal (λ x : gmap Z Z, x !! c)) in E.
      by rewrite lookup_insert_eq, lookup_empty in E.
    + by rewrite lookup_insert_ne.
Qed.

(** [set_element] keeps a well-formed instance well-formed. *)
Lemma set_element_wf m r c v m' :
  wf m → set_element m r c v = OK m' → wf m'.
Proof.
  intros [H1 H2 H3 H4 H5] Hs.
  destruct (in_bounds m r c) eqn:Hb.
  - rewrite set_element_in in Hs by done. injection Hs as <-.
    apply in_bounds_spec in Hb.
    split; simpl; try done.
    + intros r' c' v'. simpl. rewrite stored_set_data.
      case_decide as Hd; [destruct Hd as [-> ->]; done|]. apply H3.
    + intros r' c'. simpl. rewrite stored_set_data.
      case_decide; [case_decide; congruence|]. apply H4.
    + by apply set_data_no_empty_row.
  - by rewrite set_element_out in Hs.
Qed.

(** ** Computations on the heap *)

Lemma bind_run {A B} (m : M A) (k : A → M B) w :
  (m ≫= k) w = match m w with
               | (w', OK a) => k a w'
               | (w', Raise e) => (w', Raise e)
               end.
Proof. reflexivity. Qed.

Lemma deref_run l w m : objects w !! l = Some m → deref l w = (w, OK m).
Proof. intros H. unfold deref. by rewrite H. Qed.

Lemma put_put l m1 m2 w : put l m2 (put l m1 w) = put l m2 w.
Proof. unfold put. simpl. by rewrite insert_insert_eq. Qed.

Lemma put_same l m w : objects w !! l = Some m → put l m w = w.
Proof. intros H. unfold put. rewrite insert_id by done. by destruct w. Qed.

Lemma objects_put l m w l' :
  objects (put l m w) !! l' = if decide (l = l') then Some m else objects w !! l'.
Proof. unfold put. simpl. apply lookup_insert. Qed.

Lemma call_run l method w m m' :
  objects w !! l = Some m → method m = OK m' →
  call l method w = (put l m' w, OK tt).
Proof.
  intros H1 H2. unfold call. rewrite bind_run, (deref_run _ _ _ H1).
  by rewrite H2.
Qed.

Lemma query_run {A} l (method : SparseMatrix → result A) w m a :
  objects w !! l = Some m → method m = OK a → query l method w = (w, OK a).
Proof.
  intros H1 H2. unfold query. rewrite bind_run, (deref_run _ _ _ H1).
  by rewrite H2.
Qed.

Lemma for_each_app {A} (l1 l2 : list A) body w :
  for_each (l1 ++ l2) body w = (for_each l1 body;; for_each l2 body) w.
Proof.
  revert w. induction l1 as [|x l1 IH]; intros w; simpl; [done|].
  rewrite !bind_run. destruct (body x w) as [w' [[]|e]]; [|done].
  rewrite IH. by rewrite bind_run.
Qed.

Lemma for_each_bind {A B} (l : list A) (g : A → list B) body w :
  for_each (l ≫= g) body w = for_each l (λ x, for_each (g x) body) w.
Proof.
  revert w. induction l as [|x l IH]; intros w; [done|].
  change ((x :: l) ≫= g) with (g x ++ (l ≫= g)).
  rewrite for_each_app. simpl. rewrite !bind_run.
  destruct (for_each (g x) body w) as [w' [[]|e]]; [|done]. apply IH.
Qed.

Lemma for_each_fmap {A B} (h : A → B) (l : list A) body w :
  for_each (h <$> l) body w = for_each l (λ x, body (h x)) w.
Proof.
  revert w. induction l as [|x l IH]; intros w; [done|].
  simpl. rewrite !bind_run. destruct (body (h x) w) as [w' [[]|e]]; [|done].
  apply IH.
Qed.

(** Two loop bodies that agree on the worlds satisfying an invariant the
    loop keeps give the same loop. *)
Lemma for_each_ext {A} (I : world → Prop) (l : list A) body1 body2 w :
  (∀ x w, x ∈ l → I w → body1 x w = body2 x w) →
  (∀ x w, x ∈ l → I w → I (body2 x w).1) →
  I w → for_each l body1 w = for_each l body2 w.
Proof.
  revert w. induction l as [|x l IH]; intros w H1 H2 Hw; [done|].
  simpl. rewrite !bind_run.
  rewrite (H1 x w) by (done || left).
  pose proof (H2 x w ltac:(left) Hw) as Hw'.
  destruct (body2 x w) as [w' [[]|e]]; [|done].
  apply IH; [| |done].
  - intros y w2 Hy. apply H1. by right.
  - intros y w2 Hy. apply H2. by right.
Qed.

(** The nested loops over [matrix_data.items()] visit [entries]. *)
Lemma for_each_entries d (body : Z → Z → Z → M unit) w :
  for_each (map_to_list d) (λ '(r, cols_data),
    for_each (map_to_list cols_data) (λ '(c, v), body r c v)) w
  = for_each (entries d) (λ '(r, c, v), body r c v) w.
Proof.
  unfold entries. rewrite for_each_bind.
  apply (for_each_ext (λ _, True)); [|done..].
  intros [r cd] w' _ _. rewrite for_each_fmap.
  apply (for_each_ext (λ _, True)); [|done..].
  by intros [c v] w'' _ _.
Qed.

Lemma update_dims f m e :
  rows (update f m e) = rows m ∧ cols (update f m e) = cols m.
Proof. by destruct e as [[r c] v]. Qed.

Lemma in_bounds_update f m e r c :
  in_bounds (update f m e) r c = in_bounds m r c.
Proof. by destruct e as [[r' c'] v]. Qed.

Lemma foldl_update_dims f l m :
  rows (foldl (update f) m l) = rows m ∧ cols (foldl (update f) m l) = cols m.
Proof.
  revert m. induction l as [|e l IH]; intros m; [done|]. simpl.
  destruct (IH (update f m e)) as [-> ->]. apply update_dims.
Qed.

(** A loop all of whose rounds are [update]s of the object at [l]. *)
Lemma for_each_update l f (L : list (Z * Z * Z)) (body : Z * Z * Z → M unit) :
  (∀ e w R, e ∈ L → objects w !! l = Some R →
            in_bounds R e.1.1 e.1.2 = true →
            body e w = (put l (update f R e) w, OK tt)) →
  ∀ w R0, objects w !! l = Some R0 →
          (∀ e, e ∈ L → in_bounds R0 e.1.1 e.1.2 = true) →
          for_each L body w = (put l (foldl (update f) R0 L) w, OK tt).
Proof.
  induction L as [|e L IH]; intros Hbody w R0 Hl Hb; simpl.
  - by rewrite put_same.
  - rewrite bind_run, (Hbody e w R0); [|by left|done|apply Hb; by left].
    rewrite (IH (λ e' w' R' He', Hbody e' w' R' (list_elem_of_further _ _ _ He'))
                (put l (update f R0 e) w) (update f R0 e)).
    + by rewrite put_put.
    + rewrite objects_put. by case_decide.
    + intros e' He'. rewrite in_bounds_update. apply Hb. by right.
Qed.

Lemma read_write_run l f r c v w R :
  objects w !! l = Some R → in_bounds R r c = true →
  (current_val ← query l (λ m, get_element m r c);
   call l (λ m, set_element m r c (f current_val v))) w
  = (put l (update f R (r, c, v)) w, OK tt).
Proof.
  intros Hl Hb. rewrite bind_run.
  rewrite (query_run l _ w R (cell R r c)); [|done|by apply get_element_stored].
  apply (call_run l _ w R); [done|]. by apply set_element_in.
Qed.

(** ** The stored entries as a list *)

Lemma elem_of_entries d r c v :
  (r, c, v) ∈ entries d ↔ stored d r c = Some v.
Proof.
  unfold entries, stored. rewrite list_elem_of_bind. split.
  - intros [[r' cd] [Hin Hcd]]. apply elem_of_map_to_list in Hcd.
    apply list_elem_of_fmap in Hin as [[c' v'] [[= -> -> ->] Hin]].
    apply elem_of_map_to_list in Hin. by rewrite Hcd.
  - destruct (d !! r) as [cd|] eqn:Hr; simpl; [|done]. intros Hc.
    exists (r, cd). split; [|by apply elem_of_map_to_list].
    apply list_elem_of_fmap. exists (c, v).
    split; [done|by apply elem_of_map_to_list].
Qed.

Lemma NoDup_entries_keys d : NoDup (entries d).*1.
Proof.
  unfold entries.
  assert (∀ l : list (Z * gmap Z Z), NoDup l.*1 →
            NoDup (l ≫= λ '(r, cols_data),
                    (λ '(c, v), (r, c, v)) <$> map_to_list cols_data).*1)
    as Hgen; [|apply Hgen, NoDup_fst_map_to_list].
  induction l as [|[r cd] l IH]; intros Hnd; [constructor|].
  change (((r, cd) :: l) ≫= ?g) with (g (r, cd) ++ (l ≫= g)).
  rewrite fmap_app. inversion Hnd as [|?? Hr Hl]; subst.
  apply NoDup_app. split_and!.
  - replace (((λ '(c, v), (r, c, v)) <$> map_to_list cd).*1)
      with ((λ c, (r, c)) <$> (map_to_list cd).*1).
    + apply NoDup_fmap_2; [by intros ?? [=]|]. apply NoDup_fst_map_to_list.
    + rewrite <- !list_fmap_compose. apply list_fmap_ext. by intros ? [??].
  - intros [r1 c1] H1 H2. apply Hr.
    apply list_elem_of_fmap in H1 as [[[r2 c2] v2] [[= <- <-] H1]].
    apply list_elem_of_fmap in H1 as [[c3 v3] [[= -> -> ->] _]].
    apply list_elem_of_fmap in H2 as [[[r2 c2] v2] [[= <- <-] H2]].
    apply list_elem_of_bind in H2 as [[r3 cd3] [H2 H3]].
    apply list_elem_of_fmap in H2 as [[c4 v4] [[= -> -> ->] _]].
    apply list_elem_of_fmap. by exists (r3, cd3).
  - by apply IH.
Qed.

Lemma cell_update f m r0 c0 v r c :
  cell (update f m (r0, c0, v)) r c
  = if decide (r = r0 ∧ c = c0) then f (cell m r c) v else cell m r c.
Proof.
  unfold cell, update. simpl. rewrite stored_set_data.
  case_decide as H; [|done]. destruct H as [-> ->]. by case_decide.
Qed.

(** A loop over entries with pairwise different positions: every visited
    position is combined once, the others keep their value. *)
Lemma cell_foldl_update_NoDup f (L : list (Z * Z * Z)) m r c :
  NoDup L.*1 →
  (∀ v, (r, c, v) ∈ L →
        cell (foldl (update f) m L) r c = f (cell m r c) v)
  ∧ ((∀ v, (r, c, v) ∉ L) →
        cell (foldl (update f) m L) r c = cell m r c).
Proof.
  revert m. induction L as [|[[r0 c0] v0] L IH]; intros m Hnd.
  - split; [by intros v ?%elem_of_nil|done].
  - inversion Hnd as [|?? Hk HL]; subst. cbn [foldl].
    destruct (IH (update f m (r0, c0, v0)) HL) as [IH1 IH2]. split.
    + intros v [[= -> -> ->]|Hin]%elem_of_cons.
      * rewrite IH2, cell_update; [by case_decide; [|tauto]|].
        intros v' Hv'. apply Hk. apply list_elem_of_fmap.
        by exists (r0, c0, v').
      * rewrite (IH1 v Hin), cell_update. case_decide as Heq; [|done].
        destruct Heq as [-> ->]. exfalso. apply Hk.
        apply list_elem_of_fmap. by exists (r0, c0, v).
    + intros Hnot. rewrite IH2, cell_update.
      * case_decide as Heq; [|done]. destruct Heq as [-> ->].
        exfalso. apply (Hnot v0). by left.
      * intros v Hv. apply (Hnot v). by right.
Qed.

(** Each round keeps the object well-formed. *)
Lemma update_wf f m e :
  wf m → in_bounds m e.1.1 e.1.2 = true → wf (update f m e).
Proof.
  destruct e as [[r c] v]. simpl. intros Hwf Hb.
  apply (set_element_wf m r c (f (cell m r c) v)); [done|].
  by apply set_element_in.
Qed.

Lemma foldl_update_wf f L m :
  wf m → (∀ e, e ∈ L → in_bounds m e.1.1 e.1.2 = true) →
  wf (foldl (update f) m L).
Proof.
  revert m. induction L as [|e L IH]; intros m Hwf Hb; [done|]. simpl.
  apply IH.
  - apply update_wf; [done|]. apply Hb. by left.
  - intros e' He'. rewrite in_bounds_update. apply Hb. by right.
Qed.

(** ** The constructor on dimensions *)

Lemma init_dims fs n k :
  0 ≤ n → 0 ≤ k → __init__ fs (Int n) (Int k) = OK (empty_matrix n k).
Proof.
  intros Hn Hk. unfold __init__.
  destruct (Z.ltb_spec n 0); [lia|]. destruct (Z.ltb_spec k 0); [lia|]. done.
Qed.

Lemma empty_matrix_wf n k : 0 ≤ n → 0 ≤ k → wf (empty_matrix n k).
Proof. intros Hn Hk. by split. Qed.

Lemma fresh_loc_None (w : world) : objects w !! fresh (dom (objects w)) = None.
Proof. apply not_elem_of_dom, is_fresh. Qed.

Lemma new_dims_run n k w :
  0 ≤ n → 0 ≤ k →
  new (Int n) (Int k) w
  = (put (fresh (dom (objects w))) (empty_matrix n k) w,
     OK (fresh (dom (objects w)))).
Proof. intros Hn Hk. unfold new. by rewrite init_dims. Qed.

(** ** [operate] *)

Lemma entries_in_bounds A (R : SparseMatrix) :
  keys_in_bounds A → rows R = rows A → cols R = cols A →
  ∀ e, e ∈ entries (matrix_data A) → in_bounds R e.1.1 e.1.2 = true.
Proof.
  intros HA Hr Hc [[r c] v] He%elem_of_entries. simpl.
  apply in_bounds_spec. rewrite Hr, Hc. by apply (HA r c v).
Qed.

Lemma copy_loop l (L : list (Z * Z * Z)) w R0 :
  objects w !! l = Some R0 →
  (∀ e, e ∈ L → in_bounds R0 e.1.1 e.1.2 = true) →
  for_each L (λ '(r, c, v), call l (λ m, set_element m r c v)) w
  = (put l (foldl (update (λ _ v, v)) R0 L) w, OK tt).
Proof.
  apply for_each_update. intros [[r c] v] w' R _ HR Hin.
  apply (call_run l _ w' R); [done|]. by apply set_element_in.
Qed.

Lemma combine_loop l op (L : list (Z * Z * Z)) w R0 :
  objects w !! l = Some R0 →
  (∀ e, e ∈ L → in_bounds R0 e.1.1 e.1.2 = true) →
  for_each L (λ '(r, c, v),
    current_val ← query l (λ m, get_element m r c);
    call l (λ m, set_element m r c (op current_val v))) w
  = (put l (foldl (update op) R0 L) w, OK tt).
Proof.
  apply for_each_update. intros [[r c] v] w' R _ HR Hin.
  by apply read_write_run.
Qed.

Lemma operate_run a b op w A B :
  objects w !! a = Some A → objects w !! b = Some B →
  wf A → wf B → rows A = rows B → cols A = cols B →
  operate a b op w
  = (put (fresh (dom (objects w))) (operate_result A B op) w,
     OK (fresh (dom (objects w)))).
Proof.
  intros Ha Hb HA HB Hr Hc. unfold operate.
  rewrite bind_run, (deref_run a w A Ha), bind_run, (deref_run b w B Hb).
  rewrite Hr, Hc, !Z.eqb_refl. cbn [negb orb].
  rewrite <- Hr, <- Hc.
  rewrite bind_run, new_dims_run by apply HA.
  set (l := fresh (dom (objects w))).
  assert (objects w !! l = None) as Hl by apply fresh_loc_None.
  set (E := empty_matrix (rows A) (cols A)).
  assert (objects (put l E w) !! a = Some A) as Ha1.
  { rewrite objects_put. case_decide; congruence. }
  rewrite bind_run, (deref_run a _ A Ha1), bind_run.
  rewrite (for_each_entries (matrix_data A)
             (λ r c val, call l (λ m, set_element m r c val))).
  rewrite (copy_loop l _ (put l E w) E).
  2:{ rewrite objects_put. by case_decide. }
  2:{ by apply entries_in_bounds; [apply HA|..]. }
  rewrite put_put.
  set (R1 := foldl _ E _).
  assert (objects (put l R1 w) !! b = Some B) as Hb1.
  { rewrite objects_put. case_decide; congruence. }
  rewrite bind_run, (deref_run b _ B Hb1), bind_run.
  rewrite (for_each_entries (matrix_data B)
             (λ r c val,
                current_val ← query l (λ m, get_element m r c);
                call l (λ m, set_element m r c (op current_val val)))).
  rewrite (combine_loop l op _ (put l R1 w) R1).
  2:{ rewrite objects_put. by case_decide. }
  2:{ destruct (foldl_update_dims (λ _ v, v) (entries (matrix_data A)) E)
        as [Hr1 Hc1].
      apply entries_in_bounds; [apply HB|subst R1; by rewrite Hr1|
                                subst R1; by rewrite Hc1]. }
  by rewrite put_put.
Qed.
Lemma get_element_cell m r c :
  0 ≤ r < rows m → 0 ≤ c < cols m → get_element m r c = OK (cell m r c).
Proof. intros Hr Hc. by apply get_element_stored, in_bounds_spec. Qed.

Lemma cell_entries m r c :
  (∀ v, (r, c, v) ∈ entries (matrix_data m) → cell m r c = v)
  ∧ ((∀ v, (r, c, v) ∉ entries (matrix_data m)) → cell m r c = 0).
Proof.
  unfold cell. split.
  - intros v Hv%elem_of_entries. by rewrite Hv.
  - intros Hn. destruct (stored (matrix_data m) r c) as [v|] eqn:E; [|done].
    by apply elem_of_entries, Hn in E.
Qed.

Lemma cell_copy A E r c :
  cell E r c = 0 →
  cell (foldl (update (λ _ v, v)) E (entries (matrix_data A))) r c
  = cell A r c.
Proof.
  intros HE.
  destruct (cell_foldl_update_NoDup (λ _ v, v) (entries (matrix_data A)) E r c
              (NoDup_entries_keys _)) as [H1 H2].
  destruct (cell_entries A r c) as [H3 H4].
  destruct (stored (matrix_data A) r c) as [v|] eqn:Hs.
  - apply elem_of_entries in Hs. by rewrite (H1 v), (H3 v).
  - assert (∀ v, (r, c, v) ∉ entries (matrix_data A)) as Hn.
    { intros v Hv%elem_of_entries. congruence. }
    by rewrite H2, H4.
Qed.

Lemma operate_result_cell A B op r c :
  (∀ x, op x 0 = x) →
  cell (operate_result A B op) r c = op (cell A r c) (cell B r c).
Proof.
  intros Hop. unfold operate_result.
  destruct (cell_foldl_update_NoDup op (entries (matrix_data B))
              (foldl (update (λ _ v, v)) (empty_matrix (rows A) (cols A))
                     (entries (matrix_data A))) r c
              (NoDup_entries_keys _)) as [H1 H2].
  destruct (cell_entries B r c) as [H3 H4].
  destruct (stored (matrix_data B) r c) as [v|] eqn:Hs.
  - apply elem_of_entries in Hs. rewrite (H1 v), (H3 v) by done.
    by rewrite cell_copy.
  - assert (∀ v, (r, c, v) ∉ entries (matrix_data B)) as Hn.
    { intros v Hv%elem_of_entries. congruence. }
    rewrite H2, H4, Hop by done. by rewrite cell_copy.
Qed.

Lemma operate_result_dims A B op :
  rows (operate_result A B op) = rows A ∧ cols (operate_result A B op) = cols A.
Proof.
  unfold operate_result.
  destruct (foldl_update_dims op (entries (matrix_data B))
    (foldl (update (λ _ v, v)) (empty_matrix (rows A) (cols A))
           (entries (matrix_data A)))) as [-> ->].
  by destruct (foldl_update_dims (λ _ v, v) (entries (matrix_data A))
                 (empty_matrix (rows A) (cols A))) as [-> ->].
Qed.

Lemma operate_pointwise a b op w A B :
  (∀ x, op x 0 = x) →
  objects w !! a = Some A → objects w !! b = Some B →
  wf A → wf B → rows A = rows B → cols A = cols B →
  returns_new (operate a b op) w (pointwise op A B).
Proof.
  intros Hop Ha Hb HA HB Hr Hc.
  exists (fresh (dom (objects w))), (operate_result A B op).
  split; [by apply operate_run|]. split; [apply fresh_loc_None|].
  destruct (operate_result_dims A B op) as [Hr' Hc'].
  split; [done|]. split; [done|]. intros r c Hrb Hcb.
  exists (cell A r c), (cell B r c). split_and!.
  - by apply get_element_cell.
  - apply get_element_cell; lia.
  - rewrite get_element_cell by lia. by rewrite operate_result_cell.
Qed.

Lemma operate_mismatch a b op w A B :
  objects w !! a = Some A → objects w !! b = Some B →
  rows A ≠ rows B ∨ cols A ≠ cols B →
  operate a b op w = (w, Raise DimensionMismatch).
Proof.
  intros Ha Hb Hd. unfold operate.
  rewrite bind_run, (deref_run a w A Ha), bind_run, (deref_run b w B Hb).
  destruct (Z.eqb_spec (rows A) (rows B)), (Z.eqb_spec (cols A) (cols B));
    try done. lia.
Qed.

(** C1: for operands of equal dimensions, [add] and [subtract] succeed and
    return a new matrix of the same dimensions whose value at every
    in-bounds position is the sum, respectively the difference, of the
    operands' values there; for operands of different dimensions both
    raise the dimension-mismatch error and leave the world as it was, so
    no result object exists. *)
Theorem C1_add_subtract_pointwise (w : world) (a b : loc) (A B : SparseMatrix) :
  objects w !! a = Some A → objects w !! b = Some B →
  (rows A = rows B ∧ cols A = cols B → wf A → wf B →
     returns_new (add a b) w (pointwise Z.add A B)
     ∧ returns_new (subtract a b) w (pointwise Z.sub A B))
  ∧ (rows A ≠ rows B ∨ cols A ≠ cols B →
     add a b w = (w, Raise DimensionMismatch)
     ∧ subtract a b w = (w, Raise DimensionMismatch)).
Proof.
  intros Ha Hb. split.
  - intros [Hr Hc] HA HB. split.
    + apply (operate_pointwise a b Z.add); try done. intros x. lia.
    + apply (operate_pointwise a b Z.sub); try done. intros x. lia.
  - intros Hd. split; by apply (operate_mismatch a b _ w A B).
Qed.

(** ** Frames *)

Lemma only_writes_pure l {A} (m : M A) :
  (∀ w, (m w).1 = w) → only_writes l m.
Proof. intros H w. by rewrite H. Qed.

Lemma only_writes_ret l {A} (x : A) : only_writes l (mret x : M A).
Proof. by apply only_writes_pure. Qed.

Lemma only_writes_raise l {A} e : only_writes l (raise e : M A).
Proof. by apply only_writes_pure. Qed.

Lemma only_writes_deref l l0 : only_writes l (deref l0).
Proof. apply only_writes_pure. intros w. unfold deref. by destruct (_ !! _). Qed.

Lemma only_writes_bind l {A B} (m : M A) (k : A → M B) :
  only_writes l m → (∀ a, only_writes l (k a)) → only_writes l (m ≫= k).
Proof.
  intros Hm Hk w. rewrite bind_run. destruct (Hm w) as (H1 & H2 & H3).
  destruct (m w) as [w' [a|e]]; simpl in *; [|done].
  destruct (Hk a w') as (H4 & H5 & H6). split_and!; [congruence| |auto].
  intros l' Hl'. rewrite H5, H2; done.
Qed.

Lemma only_writes_query l l0 {A} (method : SparseMatrix → result A) :
  only_writes l (query l0 method).
Proof.
  apply only_writes_bind; [apply only_writes_deref|].
  intros m. destruct (method m); [apply only_writes_ret|apply only_writes_raise].
Qed.

Lemma only_writes_call l method : only_writes l (call l method).
Proof.
  apply only_writes_bind; [apply only_writes_deref|].
  intros m. destruct (method m) as [m'|e]; [|apply only_writes_raise].
  intros w. split_and!; [done| |].
  - intros l' Hl'. simpl. by rewrite lookup_insert_ne.
  - intros _. simpl. rewrite lookup_insert_eq. eauto.
Qed.

Lemma only_writes_for_each l {A} (L : list A) body :
  (∀ x, only_writes l (body x)) → only_writes l (for_each L body).
Proof.
  intros Hb. induction L as [|x L IH]; [apply only_writes_ret|].
  simpl. apply only_writes_bind; [apply Hb|done].
Qed.

Lemma yields_ret l : yields l (mret l).
Proof. by intros w x [= <-]. Qed.

Lemma yields_bind l {A} (m : M A) (k : A → M loc) :
  (∀ a, yields l (k a)) → yields l (m ≫= k).
Proof.
  intros Hk w x. rewrite bind_run.
  destruct (m w) as [w' [a|e]]; [apply Hk|done].
Qed.

(** ** [multiply] *)

Lemma only_writes_read_write l r c f :
  only_writes l
    (current_val ← query l (λ m, get_element m r c);
     call l (λ m, set_element m r c (f current_val))).
Proof.
  apply only_writes_bind; [apply only_writes_query|].
  intros x. apply only_writes_call.
Qed.

Lemma products_in_bounds A B (R : SparseMatrix) :
  keys_in_bounds A → keys_in_bounds B →
  rows R = rows A → cols R = cols B →
  ∀ e, e ∈ products A B → in_bounds R e.1.1 e.1.2 = true.
Proof.
  intros HA HB Hr Hc e He. unfold products in He.
  apply list_elem_of_bind in He as [[[r1 c1] v1] [He HeA]].
  apply list_elem_of_fmap in He as [[c2 v2] [-> He]].
  apply elem_of_map_to_list in He. apply elem_of_entries in HeA.
  simpl. apply in_bounds_spec. rewrite Hr, Hc. split.
  - by apply (HA r1 c1 v1).
  - apply (HB c1 c2 v2). unfold stored.
    destruct (matrix_data B !! c1); simpl in *; [done|].
    by rewrite lookup_empty in He.
Qed.

Lemma multiply_run a b w A B :
  objects w !! a = Some A → objects w !! b = Some B →
  wf A → wf B → cols A = rows B →
  multiply a b w
  = (put (fresh (dom (objects w))) (multiply_result A B) w,
     OK (fresh (dom (objects w)))).
Proof.
  intros Ha Hb HA HB Hd. unfold multiply.
  rewrite bind_run, (deref_run a w A Ha), bind_run, (deref_run b w B Hb).
  rewrite Hd, Z.eqb_refl. cbn [negb].
  rewrite bind_run, new_dims_run by (apply HA || apply HB).
  set (l := fresh (dom (objects w))).
  assert (objects w !! l = None) as Hl by apply fresh_loc_None.
  assert (l ≠ b) as Hlb by congruence.
  set (E := empty_matrix (rows A) (cols B)).
  assert (objects (put l E w) !! a = Some A) as Ha1.
  { rewrite objects_put. case_decide; congruence. }
  rewrite bind_run, (deref_run a _ A Ha1), bind_run.
  rewrite (for_each_entries (matrix_data A)
    (λ r1 c1 val1,
       o ← deref b;
       match matrix_data o !! c1 with
       | Some row_data2 =>
           for_each (map_to_list row_data2) (λ '(c2, val2),
             current_val ← query l (λ m, get_element m r1 c2);
             call l (λ m, set_element m r1 c2 (current_val + val1 * val2)))
       | None => mret tt
       end)).
  set (inner := λ e : Z * Z * Z,
         for_each ((λ '(c2, val2), (e.1.1, c2, e.2 * val2))
                     <$> map_to_list (default ∅ (matrix_data B !! e.1.2)))
           (λ '(r, c, v),
              current_val ← query l (λ m, get_element m r c);
              call l (λ m, set_element m r c (current_val + v)))).
  rewrite (for_each_ext (λ w', objects w' !! b = Some B) _ _ inner).
  - replace (for_each (entries (matrix_data A)) inner (put l E w))
      with (for_each (products A B)
              (λ '(r, c, v),
                 current_val ← query l (λ m, get_element m r c);
                 call l (λ m, set_element m r c (current_val + v)))
              (put l E w)).
    + rewrite (combine_loop l Z.add _ (put l E w) E).
      * by rewrite put_put.
      * rewrite objects_put. by case_decide.
      * by apply products_in_bounds; [apply HA|apply HB|..].
    + unfold products. rewrite for_each_bind.
      apply (for_each_ext (λ _, True)); [|done..].
      by intros [[r1 c1] v1] w' _ _.
  - intros [[r1 c1] v1] w' _ Hw'. unfold inner. simpl.
    rewrite bind_run, (deref_run b w' B Hw').
    rewrite for_each_fmap.
    destruct (matrix_data B !! c1) as [row2|]; simpl.
    + apply (for_each_ext (λ _, True)); [|done..].
      by intros [c2 v2] w'' _ _.
    + by rewrite map_to_list_empty.
  - intros e w' _ Hw'. unfold inner.
    pose proof (only_writes_for_each l
      ((λ '(c2, val2), (e.1.1, c2, e.2 * val2))
         <$> map_to_list (default ∅ (matrix_data B !! e.1.2)))
      (λ '(r, c, v),
         current_val ← query l (λ m, get_element m r c);
         call l (λ m, set_element m r c (current_val + v)))) as Hf.
    destruct (Hf ltac:(intros [[r c] v];
                       apply (only_writes_read_write l r c (λ x, x + v))) w')
      as (_ & Hobj & _).
    by rewrite Hobj.
  - rewrite objects_put. by case_decide.
Qed.
(** ** Finite sums *)

Lemma Zsum_cons {A} (f : A → Z) x l : Zsum f (x :: l) = f x + Zsum f l.
Proof. reflexivity. Qed.

Lemma Zsum_app {A} (f : A → Z) l1 l2 :
  Zsum f (l1 ++ l2) = Zsum f l1 + Zsum f l2.
Proof.
  induction l1 as [|x l1 IH]; [done|].
  change ((x :: l1) ++ l2) with (x :: (l1 ++ l2)). rewrite !Zsum_cons, IH. lia.
Qed.

Lemma Zsum_ext {A} (f g : A → Z) l :
  (∀ x, x ∈ l → f x = g x) → Zsum f l = Zsum g l.
Proof.
  induction l as [|x l IH]; intros H; [done|]. rewrite !Zsum_cons.
  rewrite (H x) by left. rewrite IH; [done|]. intros y Hy. apply H. by right.
Qed.

Lemma Zsum_fmap {A B} (h : A → B) (f : B → Z) l :
  Zsum f (h <$> l) = Zsum (λ x, f (h x)) l.
Proof.
  induction l as [|x l IH]; [done|]. rewrite fmap_cons, !Zsum_cons.
  by rewrite IH.
Qed.

Lemma Zsum_bind {A B} (g : A → list B) (f : B → Z) l :
  Zsum f (l ≫= g) = Zsum (λ x, Zsum f (g x)) l.
Proof.
  induction l as [|x l IH]; [done|].
  change ((x :: l) ≫= g) with (g x ++ (l ≫= g)).
  rewrite Zsum_app, IH. done.
Qed.

Lemma Zsum_zero {A} (f : A → Z) l : (∀ x, x ∈ l → f x = 0) → Zsum f l = 0.
Proof.
  induction l as [|x l IH]; intros H; [done|]. rewrite Zsum_cons.
  rewrite (H x) by left. rewrite IH; [done|]. intros y Hy. apply H. by right.
Qed.

Lemma Zsum_Permutation {A} (f : A → Z) l1 l2 :
  l1 ≡ₚ l2 → Zsum f l1 = Zsum f l2.
Proof. induction 1; rewrite ?Zsum_cons; lia. Qed.

(** A sum whose terms vanish away from one key of a dictionary. *)
Lemma Zsum_map_to_list_at {V} (m : gmap Z V) (k0 : Z) (g : V → Z) :
  Zsum (λ p, if decide (p.1 = k0) then g p.2 else 0) (map_to_list m)
  = from_option g 0 (m !! k0).
Proof.
  induction m as [|i x m Hi Hfold IH] using map_first_key_ind.
  - by rewrite map_to_list_empty, lookup_empty.
  - rewrite (Zsum_Permutation _ _ _ (map_to_list_insert m i x Hi)).
    rewrite Zsum_cons, IH, lookup_insert. simpl.
    destruct (decide (i = k0)) as [->|Hne]; [rewrite Hi; simpl; lia|done].
Qed.

(** A sum over the positions of a row is a sum over its stored entries. *)
Lemma Zsum_row (m : gmap Z Z) (h : Z → Z) (n : Z) :
  (∀ k v, m !! k = Some v → 0 ≤ k < n) →
  Zsum (λ p, p.2 * h p.1) (map_to_list m)
  = Zsum (λ k, default 0 (m !! k) * h k) (seqZ 0 n).
Proof.
  intros Hdom.
  rewrite (Zsum_ext (λ k, default 0 (m !! k) * h k)
             (λ k, Zsum (λ p, if decide (p.1 = k) then p.2 * h p.1 else 0)
                        (map_to_list m)) (seqZ 0 n)).
  2:{ intros k _. rewrite (Zsum_ext _ (λ p, if decide (p.1 = k)
                                            then (λ v, v * h k) p.2 else 0)).
      - rewrite (Zsum_map_to_list_at m k (λ v, v * h k)).
        by destruct (m !! k).
      - intros p _. case_decide; by subst. }
  assert (∀ L : list (Z * Z),
            (∀ p, p ∈ L → 0 ≤ p.1 < n) →
            Zsum (λ p, p.2 * h p.1) L
            = Zsum (λ k, Zsum (λ p, if decide (p.1 = k)
                                    then p.2 * h p.1 else 0) L) (seqZ 0 n))
    as Hgen.
  { induction L as [|p L IH]; intros HL.
    - symmetry. by apply Zsum_zero.
    - assert (∀ (S : list Z) (F : Z → Z), NoDup S →
                Zsum (λ k, (if decide (p.1 = k) then p.2 * h p.1 else 0) + F k) S
                = (if decide (p.1 ∈ S) then p.2 * h p.1 else 0) + Zsum F S)
        as Hpt.
      { induction S as [|s S IHS]; intros F HS.
        - by case_decide as H; [apply elem_of_nil in H|].
        - inversion HS as [|?? Hs HS']; subst.
          rewrite (Zsum_cons _ s S), (Zsum_cons F s S), IHS by done.
          destruct (decide (p.1 = s)) as [Heq|Hne];
            destruct (decide (p.1 ∈ S)) as [Hin|Hout];
            destruct (decide (p.1 ∈ s :: S)) as [Hin'|Hout'];
            try lia; exfalso.
          all: try (apply Hout'; subst; by constructor).
          all: try (subst; done).
          apply elem_of_cons in Hin' as [?|?]; done. }
      rewrite Zsum_cons. rewrite IH by (intros q Hq; apply HL; by right).
      symmetry. etransitivity.
      { apply (Hpt (seqZ 0 n)
                 (λ k, Zsum (λ p0, if decide (p0.1 = k)
                                   then p0.2 * h p0.1 else 0) L)).
        apply NoDup_seqZ. }
      rewrite decide_True; [done|].
      apply elem_of_seqZ. specialize (HL p ltac:(left)). lia. }
  apply Hgen. intros [k v] Hp%elem_of_map_to_list. by apply (Hdom k v).
Qed.
(** ** The value [multiply] leaves in each cell *)

Lemma cell_foldl_update_add (L : list (Z * Z * Z)) m r c :
  cell (foldl (update Z.add) m L) r c
  = cell m r c
    + Zsum (λ e, if decide (e.1.1 = r ∧ e.1.2 = c) then e.2 else 0) L.
Proof.
  revert m. induction L as [|[[r0 c0] v0] L IH]; intros m.
  - simpl. lia.
  - cbn [foldl]. rewrite IH, Zsum_cons, cell_update. simpl.
    destruct (decide (r = r0 ∧ c = c0)) as [[-> ->]|Hne].
    + rewrite decide_True by done. lia.
    + rewrite decide_False by (intros [<- <-]; tauto). lia.
Qed.

Lemma cell_row m r c :
  cell m r c = default 0 (default ∅ (matrix_data m !! r) !! c).
Proof.
  unfold cell, stored. destruct (matrix_data m !! r); simpl; [done|].
  by rewrite lookup_empty.
Qed.

Lemma Zsum_if {A} (b : bool) (f : A → Z) l :
  Zsum (λ x, if b then f x else 0) l = if b then Zsum f l else 0.
Proof. destruct b; [done|]. by apply Zsum_zero. Qed.

Lemma multiply_result_cell A B r c :
  keys_in_bounds A →
  cell (multiply_result A B) r c
  = Zsum (λ k, cell A r k * cell B k c) (seqZ 0 (cols A)).
Proof.
  intros HA. unfold multiply_result.
  rewrite cell_foldl_update_add. unfold empty_matrix at 1.
  change (cell _ r c) with 0. rewrite Z.add_0_l.
  unfold products, entries. rewrite !Zsum_bind.
  rewrite (Zsum_ext _
    (λ p, if decide (p.1 = r)
          then (λ cols_data : gmap Z Z,
                  Zsum (λ q, q.2 * cell B q.1 c) (map_to_list cols_data)) p.2
          else 0)).
  - rewrite (Zsum_map_to_list_at (matrix_data A) r
               (λ cols_data : gmap Z Z,
                  Zsum (λ q, q.2 * cell B q.1 c) (map_to_list cols_data))).
    destruct (matrix_data A !! r) as [rowA|] eqn:Hr; simpl.
    + rewrite (Zsum_row rowA (λ k, cell B k c) (cols A)).
      * apply Zsum_ext. intros k _. by rewrite (cell_row A), Hr.
      * intros k v Hk. apply (HA r k v). unfold stored. by rewrite Hr.
    + symmetry. apply Zsum_zero. intros k _. by rewrite (cell_row A), Hr.
  - intros [r1 rowA] _. simpl. rewrite Zsum_fmap.
    rewrite (Zsum_ext _ (λ q, if bool_decide (r1 = r)
                              then q.2 * cell B q.1 c else 0)).
    + rewrite Zsum_if. by case_bool_decide; case_decide.
    + intros [c1 v1] _. simpl. rewrite Zsum_fmap.
      case_bool_decide as Hr1.
      * subst r1.
        rewrite (Zsum_ext _ (λ p, if decide (p.1 = c)
                                  then (λ v2, v1 * v2) p.2 else 0)).
        -- rewrite (Zsum_map_to_list_at _ c (λ v2, v1 * v2)).
           rewrite (cell_row B).
           destruct (default ∅ (matrix_data B !! c1) !! c); simpl; lia.
        -- intros [c2 v2] _. simpl.
           destruct (decide (c2 = c)) as [->|Hne].
           ++ by rewrite decide_True.
           ++ rewrite decide_False; [done|]. by intros [_ ?].
      * apply Zsum_zero. intros [c2 v2] _. simpl.
        rewrite decide_False; [done|]. by intros [? _].
Qed.

Lemma multiply_result_dims A B :
  rows (multiply_result A B) = rows A ∧ cols (multiply_result A B) = cols B.
Proof.
  unfold multiply_result.
  by destruct (foldl_update_dims Z.add (products A B)
                 (empty_matrix (rows A) (cols B))) as [-> ->].
Qed.

Lemma dot_product_cell A B r c :
  0 ≤ r < rows A → 0 ≤ c < cols B → cols A = rows B →
  dot_product A B r c
  = OK (Zsum (λ k, cell A r k * cell B k c) (seqZ 0 (cols A))).
Proof.
  intros Hr Hc Hd. unfold dot_product.
  assert (∀ S : list Z, (∀ k, k ∈ S → 0 ≤ k < cols A) →
    foldr (λ k acc,
             x ← get_element A r k; y ← get_element B k c;
             s ← acc; mret (x * y + s)) (OK 0) S
    = OK (Zsum (λ k, cell A r k * cell B k c) S)) as Hgen.
  { induction S as [|k S IH]; intros HS; [done|].
    cbn [foldr]. rewrite IH by (intros k' Hk'; apply HS; by right).
    specialize (HS k ltac:(left)).
    rewrite (get_element_cell A r k), (get_element_cell B k c) by lia.
    done. }
  apply Hgen. intros k Hk%elem_of_seqZ. lia.
Qed.

Lemma multiply_product a b w A B :
  objects w !! a = Some A → objects w !! b = Some B →
  wf A → wf B → cols A = rows B →
  returns_new (multiply a b) w (is_product A B).
Proof.
  intros Ha Hb HA HB Hd.
  exists (fresh (dom (objects w))), (multiply_result A B).
  split; [by apply multiply_run|]. split; [apply fresh_loc_None|].
  destruct (multiply_result_dims A B) as [Hr' Hc'].
  split; [done|]. split; [done|]. intros r c Hr Hc.
  eexists. split; [by apply dot_product_cell|].
  rewrite get_element_cell by lia.
  rewrite multiply_result_cell; [done|apply HA].
Qed.

Lemma multiply_mismatch a b w A B :
  objects w !! a = Some A → objects w !! b = Some B → cols A ≠ rows B →
  multiply a b w = (w, Raise IncompatibleDimensions).
Proof.
  intros Ha Hb Hd. unfold multiply.
  rewrite bind_run, (deref_run a w A Ha), bind_run, (deref_run b w B Hb).
  by destruct (Z.eqb_spec (cols A) (rows B)).
Qed.
Lemma matrix_of_entries_wf n k (L : list (Z * Z * Z)) :
  0 ≤ n → 0 ≤ k →
  forallb (λ e, in_bounds (empty_matrix n k) e.1.1 e.1.2) L = true →
  wf (matrix_of_entries n k L).
Proof.
  intros Hn Hk HL. apply foldl_update_wf; [by apply empty_matrix_wf|].
  intros e He. rewrite forallb_forall in HL. by apply HL, list_elem_of_In.
Qed.

Lemma wf_fields m m' :
  rows m = rows m' → cols m = cols m' → matrix_data m = matrix_data m' →
  wf m → wf m'.
Proof.
  intros Hr Hc Hd [H1 H2 H3 H4 H5].
  split; unfold keys_in_bounds, no_zero_stored; rewrite <- ?Hr, <- ?Hc, <- ?Hd;
    done.
Qed.

(** C2: for operands with [A.cols = B.rows], [multiply] succeeds and
    returns a new [A.rows] by [B.cols] matrix whose value at every
    in-bounds position [(r, c)] is the sum over [k] in [[0, A.cols)] of
    [A.get(r, k) * B.get(k, c)]; otherwise it raises the
    incompatible-dimensions error and leaves the world as it was.  For
    the 2 by 2 operands with entries (0,0,1), (0,1,2) and (0,0,3), (1,0,4)
    the result holds 11 at (0, 0) and zero in every other cell. *)
Theorem C2_multiply_dot_product (w : world) (a b : loc) (A B : SparseMatrix) :
  objects w !! a = Some A → objects w !! b = Some B →
  (cols A = rows B → wf A → wf B →
     returns_new (multiply a b) w (is_product A B))
  ∧ (cols A ≠ rows B → multiply a b w = (w, Raise IncompatibleDimensions))
  ∧ (rows A = 2 → cols A = 2 → matrix_data A = matrix_data A_mul →
     rows B = 2 → cols B = 2 → matrix_data B = matrix_data B_mul →
     returns_new (multiply a b) w (λ R,
       get_element R 0 0 = OK 11 ∧ get_element R 0 1 = OK 0 ∧
       get_element R 1 0 = OK 0 ∧ get_element R 1 1 = OK 0)).
Proof.
  intros Ha Hb. split_and!.
  - intros Hd HA HB. by apply (multiply_product a b w A B).
  - intros Hd. by apply (multiply_mismatch a b w A B).
  - intros HrA HcA HdA HrB HcB HdB.
    assert (wf A_mul ∧ wf B_mul) as [HwA HwB]
      by (split; by apply matrix_of_entries_wf).
    assert (wf A) as HA by (by apply (wf_fields A_mul A)).
    assert (wf B) as HB by (by apply (wf_fields B_mul B)).
    destruct (multiply_product a b w A B Ha Hb HA HB ltac:(lia))
      as (l & R & Hrun & Hl & Hr & Hc & Hcell).
    exists l, R. split; [done|]. split; [done|].
    assert (∀ r c, dot_product A B r c = dot_product A_mul B_mul r c) as Hdot.
    { intros r c. unfold dot_product, get_element, in_bounds.
      by rewrite HrA, HcA, HdA, HrB, HcB, HdB. }
    split_and!.
    + destruct (Hcell 0 0 ltac:(lia) ltac:(lia)) as (s & Hs & ->).
      rewrite Hdot in Hs. vm_compute in Hs. congruence.
    + destruct (Hcell 0 1 ltac:(lia) ltac:(lia)) as (s & Hs & ->).
      rewrite Hdot in Hs. vm_compute in Hs. congruence.
    + destruct (Hcell 1 0 ltac:(lia) ltac:(lia)) as (s & Hs & ->).
      rewrite Hdot in Hs. vm_compute in Hs. congruence.
    + destruct (Hcell 1 1 ltac:(lia) ltac:(lia)) as (s & Hs & ->).
      rewrite Hdot in Hs. vm_compute in Hs. congruence.
Qed.

Lemma C2_multiply_witness :
  returns_new (multiply 1 2) w_mul (is_product A_mul B_mul)
  ∧ returns_new (multiply 1 2) w_mul (λ R,
      get_element R 0 0 = OK 11 ∧ get_element R 0 1 = OK 0 ∧
      get_element R 1 0 = OK 0 ∧ get_element R 1 1 = OK 0).
Proof.
  destruct (C2_multiply_dot_product w_mul 1 2 A_mul B_mul) as (H1 & _ & H2);
    [reflexivity|reflexivity|].
  split.
  - apply H1; [reflexivity|by apply matrix_of_entries_wf..].
  - apply H2; reflexivity.
Defined.

Lemma C1_add_subtract_witness :
  returns_new (add 1 2) w_add (pointwise Z.add A_add B_add)
  ∧ returns_new (subtract 1 2) w_add (pointwise Z.sub A_add B_add).
Proof.
  apply (C1_add_subtract_pointwise w_add 1 2 A_add B_add);
    [reflexivity|reflexivity|split; reflexivity|
     by apply matrix_of_entries_wf..].
Defined.

(** ** The operands are left alone *)

(** A new object and then a computation that writes only to it. *)
Lemma new_then_frame source num_cols (k : loc → M loc) w a b :
  is_Some (objects w !! a) → is_Some (objects w !! b) →
  (∀ l, only_writes l (k l)) → (∀ l, yields l (k l)) →
  leaves_operands (new source num_cols ≫= k) w a b.
Proof.
  intros Ha Hb Hk Hy. unfold leaves_operands. rewrite bind_run. unfold new.
  destruct (__init__ (files w) source num_cols) as [E|e];
    [|by split_and!; [..|intros l [=]]].
  set (l := fresh (dom (objects w))).
  assert (objects w !! l = None) as Hl by apply fresh_loc_None.
  destruct (Hk l (mkWorld (<[l:=E]> (objects w)) (files w)))
    as (Hf & Ho & Hlive).
  specialize (Hy l (mkWorld (<[l:=E]> (objects w)) (files w))).
  destruct (k l _) as [w' x]. simpl in *.
  assert (∀ l', is_Some (objects w !! l') →
                objects w' !! l' = objects w !! l') as Hold.
  { intros l' [m Hm]. rewrite Ho by congruence.
    rewrite lookup_insert_ne; [done|congruence]. }
  split_and!; [by apply Hold..|done|done|].
  intros l0 Hx. apply Hy in Hx as ->.
  split_and!; [by intros ->; destruct Ha; congruence
              |by intros ->; destruct Hb; congruence|done|].
  apply Hlive. rewrite lookup_insert_eq. eauto.
Qed.

Lemma leaves_operands_same (m : M loc) w a b e :
  m w = (w, Raise e) → leaves_operands m w a b.
Proof.
  intros H. unfold leaves_operands. rewrite H.
  by split_and!; [..|intros l [=]].
Qed.

Lemma operate_leaves_operands a b op w :
  leaves_operands (operate a b op) w a b.
Proof.
  destruct (objects w !! a) as [A|] eqn:Ha.
  2:{ apply (leaves_operands_same _ _ _ _
               (ReferenceError (lit "no such object"))).
      unfold operate. rewrite bind_run. unfold deref. by rewrite Ha. }
  destruct (objects w !! b) as [B|] eqn:Hb.
  2:{ apply (leaves_operands_same _ _ _ _
               (ReferenceError (lit "no such object"))).
      unfold operate. rewrite bind_run, (deref_run a w A Ha), bind_run.
      unfold deref. by rewrite Hb. }
  destruct (negb (rows A =? rows B) || negb (cols A =? cols B)) eqn:Hd.
  - apply (leaves_operands_same _ _ _ _ DimensionMismatch).
    unfold operate.
    rewrite bind_run, (deref_run a w A Ha), bind_run, (deref_run b w B Hb).
    by rewrite Hd.
  - unfold leaves_operands, operate.
    rewrite bind_run, (deref_run a w A Ha), bind_run, (deref_run b w B Hb).
    rewrite Hd. apply new_then_frame; [by rewrite Ha|by rewrite Hb|..].
    + intros l.
      apply only_writes_bind; [apply only_writes_deref|]. intros s.
      apply only_writes_bind.
      { apply only_writes_for_each. intros [r cd].
        apply only_writes_for_each. intros [c v]. apply only_writes_call. }
      intros _. apply only_writes_bind; [apply only_writes_deref|]. intros o.
      apply only_writes_bind; [|intros; apply only_writes_ret].
      apply only_writes_for_each. intros [r cd].
      apply only_writes_for_each. intros [c v].
      apply only_writes_bind; [apply only_writes_query|].
      intros x. apply only_writes_call.
    + intros l. do 4 (apply yields_bind; intros ?). apply yields_ret.
Qed.

Lemma multiply_leaves_operands a b w :
  leaves_operands (multiply a b) w a b.
Proof.
  destruct (objects w !! a) as [A|] eqn:Ha.
  2:{ apply (leaves_operands_same _ _ _ _
               (ReferenceError (lit "no such object"))).
      unfold multiply. rewrite bind_run. unfold deref. by rewrite Ha. }
  destruct (objects w !! b) as [B|] eqn:Hb.
  2:{ apply (leaves_operands_same _ _ _ _
               (ReferenceError (lit "no such object"))).
      unfold multiply. rewrite bind_run, (deref_run a w A Ha), bind_run.
      unfold deref. by rewrite Hb. }
  destruct (negb (cols A =? rows B)) eqn:Hd.
  - apply (leaves_operands_same _ _ _ _ IncompatibleDimensions).
    unfold multiply.
    rewrite bind_run, (deref_run a w A Ha), bind_run, (deref_run b w B Hb).
    by rewrite Hd.
  - unfold leaves_operands, multiply.
    rewrite bind_run, (deref_run a w A Ha), bind_run, (deref_run b w B Hb).
    rewrite Hd. apply new_then_frame; [by rewrite Ha|by rewrite Hb|..].
    + intros l.
      apply only_writes_bind; [apply only_writes_deref|]. intros s.
      apply only_writes_bind; [|intros; apply only_writes_ret].
      apply only_writes_for_each. intros [r1 rd].
      apply only_writes_for_each. intros [c1 v1].
      apply only_writes_bind; [apply only_writes_deref|]. intros o.
      destruct (matrix_data o !! c1); [|apply only_writes_ret].
      apply only_writes_for_each. intros [c2 v2].
      apply only_writes_bind; [apply only_writes_query|].
      intros x. apply only_writes_call.
    + intros l. do 2 (apply yields_bind; intros ?). apply yields_ret.
Qed.

(** C8: whether they return or raise, [add], [subtract] and [multiply]
    leave both operands (indeed every object that existed before the call,
    and every file) exactly as they were, and a reference they return is
    to an object that did not exist before the call, hence different from
    both operands. *)
Theorem C8_operands_not_mutated (w : world) (a b : loc) :
  leaves_operands (add a b) w a b
  ∧ leaves_operands (subtract a b) w a b
  ∧ leaves_operands (multiply a b) w a b.
Proof.
  split_and!; [apply operate_leaves_operands..
              |apply multiply_leaves_operands].
Qed.

(** ** The loop body of [_parse_file], case by case *)

Lemma format_prefix_duplicate d :
  contains (str_of_exn (DuplicateHeader d)) (lit "Input file has wrong format")
  = true.
Proof. by destruct d. Qed.

Lemma format_prefix_malformed d :
  contains (str_of_exn (MalformedHeader d)) (lit "Input file has wrong format")
  = true.
Proof. by destruct d. Qed.

Lemma format_prefix_range d :
  contains (str_of_exn (HeaderOutOfRange d)) (lit "Input file has wrong format")
  = true.
Proof. by destruct d. Qed.

Lemma py_int_cases s :
  (∃ z, py_int s = OK z) ∨ (∃ e, py_int s = Raise e ∧ int_failure s e).
Proof.
  unfold py_int. destruct s as [|c ds]; [right; eexists; split; [done|constructor]|].
  repeat (match goal with |- context [if ?b then _ else _] => destruct b end);
    simpl; eauto; right; eexists; (split; [done|constructor]).
Qed.

Lemma validate_cases self val_str line_num raw_line d :
  (_is_valid_int val_str = false
   ∧ _validate_and_set_dimension self val_str line_num raw_line d
     = Raise (MalformedHeader d))
  ∨ (∃ e, _is_valid_int val_str = true
          ∧ py_int val_str = Raise e ∧ int_failure val_str e
          ∧ _validate_and_set_dimension self val_str line_num raw_line d
            = Raise e)
  ∨ (∃ z, _is_valid_int val_str = true ∧ py_int val_str = OK z ∧ z < -1
          ∧ _validate_and_set_dimension self val_str line_num raw_line d
            = Raise (HeaderOutOfRange d))
  ∨ (∃ z, _is_valid_int val_str = true ∧ py_int val_str = OK z ∧ -1 ≤ z
          ∧ _validate_and_set_dimension self val_str line_num raw_line d
            = OK (set_dimension self d z)).
Proof.
  unfold _validate_and_set_dimension.
  destruct (_is_valid_int val_str); [|by left]. right.
  destruct (py_int_cases val_str) as [[z Hz]|(e & He & Hf)].
  - right. rewrite Hz. simpl. destruct (Z.ltb_spec z (-1)).
    + left. by exists z.
    + right. exists z. by destruct d.
  - left. exists e. by rewrite He.
Qed.

Lemma parse_header_cases d st line_num raw_line line :
  (∃ e, parse_header d st line_num raw_line line = Raise e
        ∧ line_failure line_num e)
  ∨ (∃ v z, parsed d st = false
            ∧ split "=" line !! 1%nat = Some v
            ∧ _is_valid_int (strip v) = true
            ∧ py_int (strip v) = OK z ∧ -1 ≤ z
            ∧ parse_header d st line_num raw_line line
              = OK (set_parsed d (set_dimension (self_of st) d z) st)).
Proof.
  unfold parse_header. destruct (parsed d st).
  { left. eexists. split; [done|constructor]. }
  destruct (split "=" line !! 1%nat) as [v|]; simpl.
  2:{ left. eexists. split; [done|constructor]. }
  destruct (validate_cases (self_of st) (strip v) line_num raw_line d)
    as [[_ ->]|[(e & _ & _ & Hf & ->)|[(z & _ & _ & _ & ->)
                                      |(z & Hv & Hz & Hr & ->)]]].
  - left. rewrite format_prefix_malformed. eexists. split; [done|constructor].
  - left. destruct Hf; simpl;
      destruct (contains _ _); eexists; (split; [done|constructor]).
  - left. rewrite format_prefix_range. eexists. split; [done|constructor].
  - right. by exists v, z.
Qed.

Lemma parse_entry_cases st line_num line :
  (∃ e, parse_entry st line_num line = Raise e ∧ line_failure line_num e)
  ∨ (∃ pr pc pv r c v,
       parsed_rows st = true ∧ parsed_cols st = true
       ∧ strip <$> split "," (strip (slice_1_m1 line)) = [pr; pc; pv]
       ∧ forallb _is_valid_int [pr; pc; pv] = true
       ∧ py_int pr = OK r ∧ py_int pc = OK c ∧ py_int pv = OK v
       ∧ in_bounds (self_of st) r c = true
       ∧ parse_entry st line_num line
         = OK (mkParseState
                 (set_matrix_data (self_of st)
                    (set_data (matrix_data (self_of st)) r c v))
                 true true)).
Proof.
  unfold parse_entry.
  destruct (parsed_rows st) eqn:Hpr; [|left; eexists; split; [done|constructor]].
  destruct (parsed_cols st) eqn:Hpc; [|left; eexists; split; [done|constructor]].
  cbn [negb orb].
  destruct (strip <$> split "," (strip (slice_1_m1 line)))
    as [|pr [|pc [|pv [|? ?]]]] eqn:Hparts;
    try (left; eexists; split; [done|constructor]).
  cbn [length Nat.eqb negb orb].
  destruct (forallb _is_valid_int [pr; pc; pv]) eqn:Hvalid;
    [|left; eexists; split; [done|constructor]].
  cbn [negb].
  destruct (py_int_cases pr) as [[r Er]|(e & Er & Hf)]; rewrite Er;
    [|left; eexists; split; [done|destruct Hf; constructor]].
  destruct (py_int_cases pc) as [[c Ec]|(e & Ec & Hf)]; rewrite Ec;
    [|left; eexists; split; [done|destruct Hf; constructor]].
  destruct (py_int_cases pv) as [[v Ev]|(e & Ev & Hf)]; rewrite Ev;
    [|left; eexists; split; [done|destruct Hf; constructor]].
  cbn [mbind result_bind].
  change ((0 <=? r) && (r <? rows (self_of st)) && (0 <=? c)
          && (c <? cols (self_of st))) with (in_bounds (self_of st) r c).
  destruct (in_bounds (self_of st) r c) eqn:Hb;
    [|left; eexists; split; [done|constructor]].
  right. exists pr, pc, pv, r, c, v. cbn [negb].
  rewrite set_element_in by done. by split_and!.
Qed.

Lemma parse_line_cases st line_num raw_line :
  (∃ e, parse_line st line_num raw_line = Raise e ∧ line_failure line_num e)
  ∨ (strip raw_line = [] ∧ parse_line st line_num raw_line = OK st)
  ∨ (∃ d v z, parsed d st = false ∧ -1 ≤ z
            ∧ startswith (strip raw_line)
                (match d with row => lit "rows=" | col => lit "cols=" end) = true
            ∧ split "=" (strip raw_line) !! 1%nat = Some v
            ∧ _is_valid_int (strip v) = true
            ∧ py_int (strip v) = OK z
            ∧ parse_line st line_num raw_line
              = OK (set_parsed d (set_dimension (self_of st) d z) st))
  ∨ (∃ r c v, data_line raw_line r c v
            ∧ parsed_rows st = true ∧ parsed_cols st = true
            ∧ in_bounds (self_of st) r c = true
            ∧ parse_line st line_num raw_line
              = OK (mkParseState
                      (set_matrix_data (self_of st)
                         (set_data (matrix_data (self_of st)) r c v))
                      true true)).
Proof.
  unfold parse_line. case_bool_decide as Hblank; [by right; left|].
  destruct (startswith (strip raw_line) (lit "rows=")) eqn:Hrows.
  { destruct (parse_header_cases row st line_num raw_line (strip raw_line))
      as [?|(v & z & ? & ? & ? & ? & ? & ?)]; [by left|].
    right; right; left. by exists row, v, z. }
  destruct (startswith (strip raw_line) (lit "cols=")) eqn:Hcols.
  { destruct (parse_header_cases col st line_num raw_line (strip raw_line))
      as [?|(v & z & ? & ? & ? & ? & ? & ?)]; [by left|].
    right; right; left. by exists col, v, z. }
  destruct (startswith (strip raw_line) (lit "(")
            && endswith (strip raw_line) (lit ")")) eqn:Hparen.
  2:{ left. eexists. split; [done|constructor]. }
  destruct (parse_entry_cases st line_num (strip raw_line))
    as [?|(pr & pc & pv & r & c & v & ? & ? & ? & ? & ? & ? & ? & ? & ?)];
    [by left|].
  right; right; right. exists r, c, v. split_and!; try done.
  split; [done|]. by exists pr, pc, pv.
Qed.
(** ** The loop of [_parse_file] *)

Lemma init_file_run fs file_path num_cols content :
  fs !! file_path = Some content →
  __init__ fs (Str file_path) num_cols
  = (st ← parse_lines initial_state 0 (readlines content);
     if negb (parsed_rows st) || negb (parsed_cols st)
     then Raise MissingHeaders else OK (self_of st)).
Proof. intros H. unfold __init__, _parse_file. by rewrite H. Qed.

Lemma init_file_missing fs file_path num_cols :
  fs !! file_path = None →
  __init__ fs (Str file_path) num_cols = Raise (FileNotFound file_path).
Proof. intros H. unfold __init__, _parse_file. by rewrite H. Qed.

(** A failing loop fails at one line, after the lines before it went
    through. *)
Lemma parse_lines_raise lines st line_num e :
  parse_lines st line_num lines = Raise e →
  ∃ (k : nat) raw_line st',
    lines !! k = Some raw_line
    ∧ parse_lines st line_num (take k lines) = OK st'
    ∧ parse_line st' (line_num + Z.of_nat k) raw_line = Raise e.
Proof.
  revert st line_num. induction lines as [|raw lines IH]; intros st n H;
    [done|].
  cbn [parse_lines] in H.
  destruct (parse_line st n raw) as [st1|e1] eqn:Hl.
  - apply IH in H as (k & raw' & st' & H1 & H2 & H3).
    exists (S k), raw', st'. split_and!; [done| |].
    + cbn [take parse_lines]. by rewrite Hl.
    + by replace (n + Z.of_nat (S k)) with (n + 1 + Z.of_nat k) by lia.
  - injection H as <-. exists 0%nat, raw, st. split_and!; [done..|].
    by rewrite Z.add_0_r.
Qed.

Lemma parse_lines_app l1 l2 st line_num :
  parse_lines st line_num (l1 ++ l2)
  = (st' ← parse_lines st line_num l1;
     parse_lines st' (line_num + Z.of_nat (length l1)) l2).
Proof.
  revert st line_num. induction l1 as [|raw l1 IH]; intros st n.
  - simpl. by rewrite Z.add_0_r.
  - cbn [app parse_lines length]. destruct (parse_line st n raw); [|done].
    cbn [mbind result_bind]. rewrite IH.
    destruct (parse_lines _ (n + 1) l1); [|done]. cbn [mbind result_bind].
    f_equal. lia.
Qed.

Lemma line_failure_names line_num e :
  line_failure line_num e → line_numbered e → names_line e (line_num + 1).
Proof.
  intros Hf (j & Hj). unfold names_line.
  destruct Hf as [d|d|d|d| | |s|n|r c| ].
  4:{ exists (lit "Input file has wrong format: Malformed '"
              ++ dim_name d ++ lit "s' entry").
      destruct d; reflexivity. }
  5:{ by exists (lit "Input file has wrong format: Invalid data entry"). }
  8:{ by exists (lit "Input file has wrong format: Unrecognized line format"). }
  all: exfalso; destruct Hj as [Hj|[Hj|[d' Hj]]];
    try destruct d; try destruct d'; discriminate Hj.
Qed.
(** ** Failures and their messages *)

(** A malformed-entry or unrecognized-line failure (and the
    malformed-header failure raised by the handler of the header branch)
    is raised at one line of the file, after the lines before it were
    accepted, and its message ends with " on line " followed by the
    1-based number of that line. *)
Theorem line_numbered_failure_names_line (fs : filesystem) (file_path : str)
    (num_cols : arg) (content : str) (e : exn) :
  fs !! file_path = Some content →
  __init__ fs (Str file_path) num_cols = Raise e →
  line_numbered e →
  ∃ (k : nat) raw_line st,
    readlines content !! k = Some raw_line
    ∧ parse_lines initial_state 0 (take k (readlines content)) = OK st
    ∧ parse_line st (Z.of_nat k) raw_line = Raise e
    ∧ names_line e (Z.of_nat k + 1).
Proof.
  intros Hfs Hrun Hnum. rewrite (init_file_run _ _ _ content Hfs) in Hrun.
  destruct (parse_lines initial_state 0 (readlines content)) as [st|e']
    eqn:Hloop; cbn [mbind result_bind] in Hrun.
  - destruct (negb (parsed_rows st) || negb (parsed_cols st)); [|done].
    injection Hrun as <-. exfalso.
    destruct Hnum as (j & [Hj|[Hj|[d Hj]]]); try destruct d; discriminate Hj.
  - injection Hrun as ->.
    apply parse_lines_raise in Hloop as (k & raw & st & H1 & H2 & H3).
    rewrite Z.add_0_l in H3. exists k, raw, st. split_and!; try done.
    destruct (parse_line_cases st (Z.of_nat k) raw)
      as [(e0 & He0 & Hf)|[(_ & Hok)|[(?&?&?&?&?&?&?&?&?& Hok)
                                     |(?&?&?&?&?&?&?& Hok)]]];
      try congruence.
    rewrite H3 in He0. injection He0 as <-. by apply line_failure_names.
Qed.

Lemma line_numbered_failure_witness :
  ∃ (k : nat) raw_line st,
    readlines (text ["rows=3"; "cols=3"; "(1,2)"]) !! k = Some raw_line
    ∧ parse_lines initial_state 0
        (take k (readlines (text ["rows=3"; "cols=3"; "(1,2)"]))) = OK st
    ∧ parse_line st (Z.of_nat k) raw_line = Raise (MalformedEntry 2)
    ∧ names_line (MalformedEntry 2) (Z.of_nat k + 1).
Proof.
  apply (line_numbered_failure_names_line
           {[lit "m.txt" := text ["rows=3"; "cols=3"; "(1,2)"]]}
           (lit "m.txt") NoneArg).
  - reflexivity.
  - vm_compute. reflexivity.
  - exists 2. left. reflexivity.
Defined.

(** C5 fails on the code: a duplicate header on line 3, a data line
    before the headers on line 1, an out-of-bounds entry on line 3, a
    header value that is no integer on line 1 and a header value below -1
    on line 2 are each rejected with a message in which the number of the
    line does not occur, although [_validate_and_set_dimension] is handed
    the line number and the other raise sites of the loop name it. *)
Theorem C5_messages_without_line_number :
  fails_without_naming (text ["rows=2"; "cols=2"; "rows=3"])
                       (DuplicateHeader row) 3
  ∧ fails_without_naming (text ["(0,0,1)"; "rows=1"; "cols=1"])
                         HeaderMissing 1
  ∧ fails_without_naming (text ["rows=2"; "cols=2"; "(5, 0, 1)"])
                         (EntryOutOfBounds 5 0) 3
  ∧ fails_without_naming (text ["rows=abc"; "cols=1"])
                         (MalformedHeader row) 1
  ∧ fails_without_naming (text ["rows=3"; "cols=-2"])
                         (HeaderOutOfRange col) 2.
Proof.
  unfold fails_without_naming.
  repeat match goal with
         | |- _ ∧ _ => split
         | |- ∃ _, _ => eexists
         | |- _ => vm_compute; reflexivity
         end.
Qed.

(** ** Header values *)

(** C6 fails on the code: the header value is the text between the first
    and the second '=', so a header line whose text after the first '='
    is "1=junk", which is no integer, is accepted and declares the
    dimension 2. *)
Theorem C6_text_after_second_equals_ignored :
  _is_valid_int (lit "1=junk") = false
  ∧ load (text ["rows=1=junk"; "cols=1"]) = OK (mkSparseMatrix ∅ 1 1 2 2)
  ∧ load (text ["rows=1"; "cols=1"]) = OK (mkSparseMatrix ∅ 1 1 2 2).
Proof. split_and!; vm_compute; reflexivity. Qed.

(** ** What an accepted line does to the object *)

Lemma startswith_cons s c p :
  startswith s (c :: p) = true → ∃ s', s = c :: s' ∧ startswith s' p = true.
Proof.
  destruct s as [|b s']; [done|]. simpl.
  destruct (Ascii.eqb_spec c b) as [->|]; [|done]. eauto.
Qed.

Lemma data_line_functional raw_line r c v r' c' v' :
  data_line raw_line r c v → data_line raw_line r' c' v' →
  r = r' ∧ c = c' ∧ v = v'.
Proof.
  intros (_ & pr & pc & pv & Hp & _ & Hr & Hc & Hv)
         (_ & pr' & pc' & pv' & Hp' & _ & Hr' & Hc' & Hv').
  rewrite Hp in Hp'. injection Hp' as <- <- <-.
  split_and!; congruence.
Qed.

Lemma stored_set_dimension m d z r c :
  stored (matrix_data (set_dimension m d z)) r c = stored (matrix_data m) r c.
Proof. by destruct d. Qed.

(** An accepted line changes the entry at [(r, c)] only if it is a data
    line for that position, and then sets it to the value of the line. *)
Lemma parse_line_stored st line_num raw_line st' r c :
  parse_line st line_num raw_line = OK st' →
  (∀ v, data_line raw_line r c v →
        stored (matrix_data (self_of st')) r c
        = if decide (v = 0) then None else Some v)
  ∧ ((∀ v, ¬ data_line raw_line r c v) →
        stored (matrix_data (self_of st')) r c
        = stored (matrix_data (self_of st)) r c).
Proof.
  intros Hok.
  destruct (parse_line_cases st line_num raw_line)
    as [(e0 & He0 & _)|[(Hblank & Hst)|[(d & v0 & z & _ & _ & Hsw & _ & _ & _ & Hst)
                       |(r0 & c0 & v0 & Hd & _ & _ & _ & Hst)]]];
    rewrite Hok in *; try done.
  - injection Hst as ->. split; [|done].
    intros v (Hparen & _). rewrite Hblank in Hparen. by vm_compute in Hparen.
  - injection Hst as ->. split.
    + intros v (Hparen & _). exfalso.
      apply andb_true_iff in Hparen as [Hparen _].
      apply (startswith_cons _ "(" []) in Hparen as (s1 & Hs1 & _).
      rewrite Hs1 in Hsw. by destruct d.
    + intros _. by destruct d, st.
  - injection Hst as ->. simpl. rewrite stored_set_data. split.
    + intros v Hv.
      destruct (data_line_functional _ _ _ _ _ _ _ Hd Hv) as (-> & -> & ->).
      by rewrite decide_True.
    + intros Hn. rewrite decide_False; [done|].
      intros [-> ->]. by apply (Hn v0).
Qed.

Lemma parse_lines_stored lines st line_num st' r c :
  parse_lines st line_num lines = OK st' →
  (∀ raw_line v, raw_line ∈ lines → ¬ data_line raw_line r c v) →
  stored (matrix_data (self_of st')) r c
  = stored (matrix_data (self_of st)) r c.
Proof.
  revert st line_num. induction lines as [|raw lines IH]; intros st n Hok Hn.
  - by injection Hok as ->.
  - cbn [parse_lines] in Hok.
    destruct (parse_line st n raw) as [st1|] eqn:Hl; [|done].
    cbn [mbind result_bind] in Hok.
    rewrite (IH st1 (n + 1) Hok) by (intros raw' v' ?; apply Hn; by right).
    apply (parse_line_stored _ _ _ _ r c Hl).
    intros v. apply Hn. by left.
Qed.

(** A data line that comes after both headers and is in bounds is applied
    whatever the position holds already. *)
Lemma parse_line_data st line_num raw_line r c v :
  data_line raw_line r c v →
  parsed_rows st = true → parsed_cols st = true →
  in_bounds (self_of st) r c = true →
  parse_line st line_num raw_line
  = OK (mkParseState
          (set_matrix_data (self_of st)
             (set_data (matrix_data (self_of st)) r c v))
          true true).
Proof.
  intros (Hparen & pr & pc & pv & Hp & Hvalid & Hr & Hc & Hv) Hpr Hpc Hb.
  unfold parse_line.
  destruct (strip raw_line) as [|ch rest] eqn:Hline; [done|].
  rewrite bool_decide_false by done.
  assert (ch = "("%char) as ->.
  { apply andb_true_iff in Hparen as [Hparen _].
    by apply (startswith_cons _ "(" []) in Hparen as (s1 & [= -> _] & _). }
  change (startswith ("("%char :: rest) (lit "rows=")) with false.
  change (startswith ("("%char :: rest) (lit "cols=")) with false.
  rewrite Hparen. unfold parse_entry.
  rewrite Hpr, Hpc, Hp. cbn [negb orb length Nat.eqb].
  rewrite Hvalid, Hr, Hc, Hv. cbn [negb mbind result_bind].
  change ((0 <=? r) && (r <? rows (self_of st)) && (0 <=? c)
          && (c <? cols (self_of st))) with (in_bounds (self_of st) r c).
  rewrite Hb. cbn [negb]. by rewrite set_element_in.
Qed.

(** C10: when a loaded file has several data lines for one position, the
    matrix holds the value of the last of them, and nothing at that
    position when that value is 0; a repeated position is no error, a
    data line being applied whatever the position already holds. *)
Theorem C10_last_data_line_wins (fs : filesystem) (file_path : str)
    (num_cols : arg) (content : str) (M : SparseMatrix)
    (before after : list str) (raw_line : str) (r c v : Z) :
  fs !! file_path = Some content →
  readlines content = before ++ raw_line :: after →
  data_line raw_line r c v →
  (∀ raw_line' v', raw_line' ∈ after → ¬ data_line raw_line' r c v') →
  __init__ fs (Str file_path) num_cols = OK M →
  stored (matrix_data M) r c = (if decide (v = 0) then None else Some v)
  ∧ ∀ st line_num,
      parsed_rows st = true → parsed_cols st = true →
      in_bounds (self_of st) r c = true →
      ∃ st', parse_line st line_num raw_line = OK st'
             ∧ stored (matrix_data (self_of st')) r c
               = (if decide (v = 0) then None else Some v).
Proof.
  intros Hfs Hlines Hd Hafter Hrun. split.
  - rewrite (init_file_run _ _ _ _ Hfs), Hlines, parse_lines_app in Hrun.
    destruct (parse_lines initial_state 0 before) as [st1|]; [|done].
    cbn [mbind result_bind parse_lines] in Hrun.
    destruct (parse_line st1 _ raw_line) as [st2|] eqn:Hl; [|done].
    cbn [mbind result_bind] in Hrun.
    destruct (parse_lines st2 _ after) as [st3|] eqn:Hrest; [|done].
    cbn [mbind result_bind] in Hrun.
    destruct (negb _ || negb _); [done|]. injection Hrun as <-.
    rewrite (parse_lines_stored _ _ _ _ r c Hrest Hafter).
    by apply (parse_line_stored _ _ _ _ r c Hl).
  - intros st n Hpr Hpc Hb. eexists. split; [by apply parse_line_data|].
    simpl. rewrite stored_set_data. by rewrite decide_True.
Qed.

Lemma C10_last_data_line_wins_witness :
  stored (matrix_data (mkSparseMatrix {[0 := {[0 := 7]}]} 1 1 2 2)) 0 0
  = (if decide (7 = 0) then None else Some 7)
  ∧ ∀ st line_num,
      parsed_rows st = true → parsed_cols st = true →
      in_bounds (self_of st) 0 0 = true →
      ∃ st', parse_line st line_num (lit "(0,0,7)" ++ [LF]) = OK st'
             ∧ stored (matrix_data (self_of st')) 0 0
               = (if decide (7 = 0) then None else Some 7).
Proof.
  apply (C10_last_data_line_wins
           {[lit "m.txt" := text ["rows=1"; "cols=1"; "(0,0,5)"; "(0,0,7)"]]}
           (lit "m.txt") NoneArg
           (text ["rows=1"; "cols=1"; "(0,0,5)"; "(0,0,7)"])
           (mkSparseMatrix {[0 := {[0 := 7]}]} 1 1 2 2)
           [lit "rows=1" ++ [LF]; lit "cols=1" ++ [LF]; lit "(0,0,5)" ++ [LF]]
           [] (lit "(0,0,7)" ++ [LF]) 0 0 7).
  - reflexivity.
  - reflexivity.
  - split; [reflexivity|].
    exists (lit "0"), (lit "0"), (lit "7"). split_and!; reflexivity.
  - intros raw v' H. by apply elem_of_nil in H.
  - vm_compute. reflexivity.
Defined.

(** ** The invariant *)

Lemma wf_invariant m : wf m → invariant m.
Proof. intros H. split; apply H. Qed.

Lemma set_element_invariant m r c v m' :
  invariant m → set_element m r c v = OK m' → invariant m'.
Proof.
  intros [H1 H2] Hs. destruct (in_bounds m r c) eqn:Hb.
  - rewrite set_element_in in Hs by done. injection Hs as <-.
    apply in_bounds_spec in Hb. split.
    + intros r' c'. simpl. rewrite stored_set_data.
      case_decide; [case_decide; congruence|]. apply H1.
    + intros r' c' v'. simpl. rewrite stored_set_data.
      case_decide as Hd; [destruct Hd as [-> ->]; done|]. apply H2.
  - by rewrite set_element_out in Hs.
Qed.

Lemma set_element_zero m r c m' :
  set_element m r c 0 = OK m' → stored (matrix_data m') r c = None.
Proof.
  intros Hs. destruct (in_bounds m r c) eqn:Hb.
  - rewrite set_element_in in Hs by done. injection Hs as <-. simpl.
    rewrite stored_set_data. by rewrite !decide_True.
  - by rewrite set_element_out in Hs.
Qed.

Lemma parse_line_invariant st line_num raw_line st' :
  parse_line st line_num raw_line = OK st' →
  loop_invariant st → loop_invariant st'.
Proof.
  intros Hok [Hwf Hempty].
  destruct (parse_line_cases st line_num raw_line)
    as [(e0 & He0 & _)|[(_ & Hst)|[(d & v0 & z & Hp & Hz & _ & _ & _ & _ & Hst)
                       |(r0 & c0 & v0 & _ & _ & _ & Hb & Hst)]]];
    rewrite Hok in *; try done.
  - by injection Hst as ->.
  - injection Hst as ->.
    assert (matrix_data (self_of st) = ∅) as Hd.
    { apply Hempty. destruct d; simpl in Hp; rewrite Hp;
        [done|apply andb_false_r]. }
    destruct Hwf as [H1 H2 _ _ _].
    assert (wf (set_dimension (self_of st) d z)) as Hwf'.
    { destruct d; split; simpl; try lia; try done;
        unfold keys_in_bounds, no_zero_stored, stored; simpl; rewrite Hd;
        intros *; by rewrite lookup_empty. }
    split; [by destruct d|]. intros _. by destruct d.
  - injection Hst as ->. split; [|done]. simpl.
    apply (set_element_wf (self_of st) r0 c0 v0); [done|].
    by apply set_element_in.
Qed.

Lemma parse_lines_invariant lines st line_num st' :
  parse_lines st line_num lines = OK st' →
  loop_invariant st → loop_invariant st'.
Proof.
  revert st line_num. induction lines as [|raw lines IH]; intros st n Hok Hi.
  - by injection Hok as <-.
  - cbn [parse_lines] in Hok.
    destruct (parse_line st n raw) as [st1|] eqn:Hl; [|done].
    apply (IH st1 (n + 1)); [done|]. by apply (parse_line_invariant st n raw).
Qed.

Lemma initial_state_invariant : loop_invariant initial_state.
Proof. split; [by split|done]. Qed.

(** Every object the constructor builds is well-formed. *)
Lemma init_wf fs source num_cols m :
  __init__ fs source num_cols = OK m → wf m.
Proof.
  destruct source as [file_path|n|].
  - destruct (fs !! file_path) as [content|] eqn:Hfs.
    + rewrite (init_file_run _ _ _ _ Hfs).
      destruct (parse_lines initial_state 0 (readlines content)) as [st|]
        eqn:Hloop; [|done].
      cbn [mbind result_bind]. destruct (negb _ || negb _); [done|].
      intros [= <-].
      by apply (parse_lines_invariant _ _ _ _ Hloop initial_state_invariant).
    + by rewrite init_file_missing.
  - destruct num_cols as [|k|]; [done| |done]. unfold __init__.
    destruct (Z.ltb_spec n 0); [done|]. destruct (Z.ltb_spec k 0); [done|].
    intros [= <-]. by apply empty_matrix_wf.
  - done.
Qed.

Lemma world_wf_put l m w : world_wf w → wf m → world_wf (put l m w).
Proof.
  intros Hw Hm l' m'. rewrite objects_put. case_decide; [congruence|apply Hw].
Qed.

Lemma operate_result_wf A B op :
  wf A → wf B → rows A = rows B → cols A = cols B →
  wf (operate_result A B op).
Proof.
  intros HA HB Hr Hc. unfold operate_result.
  destruct (foldl_update_dims (λ _ v, v) (entries (matrix_data A))
              (empty_matrix (rows A) (cols A))) as [Hr1 Hc1].
  apply foldl_update_wf.
  - apply foldl_update_wf; [apply empty_matrix_wf; apply HA|].
    by apply entries_in_bounds; [apply HA|..].
  - apply entries_in_bounds; [apply HB|by rewrite Hr1|by rewrite Hc1].
Qed.

Lemma multiply_result_wf A B : wf A → wf B → wf (multiply_result A B).
Proof.
  intros HA HB. unfold multiply_result. apply foldl_update_wf.
  - apply empty_matrix_wf; [apply HA|apply HB].
  - by apply products_in_bounds; [apply HA|apply HB|..].
Qed.

Lemma operate_world_wf a b op w :
  world_wf w → world_wf (operate a b op w).1.
Proof.
  intros Hw.
  destruct (objects w !! a) as [A|] eqn:Ha.
  2:{ unfold operate. rewrite bind_run. unfold deref. by rewrite Ha. }
  destruct (objects w !! b) as [B|] eqn:Hb.
  2:{ unfold operate. rewrite bind_run, (deref_run a w A Ha), bind_run.
      unfold deref. by rewrite Hb. }
  destruct (decide (rows A = rows B ∧ cols A = cols B)) as [[Hr Hc]|Hd].
  - rewrite (operate_run a b op w A B) by eauto. simpl.
    apply world_wf_put; [done|]. apply operate_result_wf; eauto.
  - rewrite (operate_mismatch a b op w A B); [done..|]. lia.
Qed.

Lemma multiply_world_wf a b w : world_wf w → world_wf (multiply a b w).1.
Proof.
  intros Hw.
  destruct (objects w !! a) as [A|] eqn:Ha.
  2:{ unfold multiply. rewrite bind_run. unfold deref. by rewrite Ha. }
  destruct (objects w !! b) as [B|] eqn:Hb.
  2:{ unfold multiply. rewrite bind_run, (deref_run a w A Ha), bind_run.
      unfold deref. by rewrite Hb. }
  destruct (decide (cols A = rows B)) as [Hd|Hd].
  - rewrite (multiply_run a b w A B) by eauto. simpl.
    apply world_wf_put; [done|]. apply multiply_result_wf; eauto.
  - by rewrite (multiply_mismatch a b w A B).
Qed.

Lemma run_operation_wf w o : world_wf w → world_wf (run_operation w o).
Proof.
  intros Hw. destruct o as [src nc|l r c v|a b|a b|a b|l p]; simpl.
  - unfold new. destruct (__init__ _ _ _) as [m|] eqn:Hi; [|done].
    apply (world_wf_put _ m w Hw). by apply init_wf in Hi.
  - unfold call. rewrite bind_run. unfold deref.
    destruct (objects w !! l) as [m|] eqn:Hl; [|done].
    destruct (set_element m r c v) as [m'|] eqn:Hs; [|done].
    apply (world_wf_put _ m' w Hw).
    apply (set_element_wf m r c v); [by apply (Hw l)|done].
  - by apply operate_world_wf.
  - by apply operate_world_wf.
  - by apply multiply_world_wf.
  - unfold save. rewrite bind_run. unfold deref.
    by destruct (objects w !! l).
Qed.

Lemma run_operations_wf os w : world_wf w → world_wf (run_operations os w).
Proof.
  revert w. induction os as [|o os IH]; intros w Hw; [done|].
  apply IH. by apply run_operation_wf.
Qed.

(** C4: every matrix of a world reached from no objects by constructing
    (from dimensions or from a file), setting elements, adding,
    subtracting, multiplying and saving stores no zero and stores keys
    within its bounds only; [set_element] maintains this invariant, and
    called with the value 0 it leaves nothing stored at the position. *)
Theorem C4_invariant_maintained (fs : filesystem) (os : list operation)
    (l : loc) (m : SparseMatrix) :
  objects (run_operations os (mkWorld ∅ fs)) !! l = Some m →
  invariant m
  ∧ (∀ m0 r c v m', invariant m0 → set_element m0 r c v = OK m' →
                    invariant m')
  ∧ (∀ m0 r c m', set_element m0 r c 0 = OK m' →
                  stored (matrix_data m') r c = None).
Proof.
  intros Hl. split_and!.
  - apply wf_invariant. apply (run_operations_wf os (mkWorld ∅ fs)) in Hl; [done|].
    intros l' m'. simpl. by rewrite lookup_empty.
  - apply set_element_invariant.
  - apply set_element_zero.
Qed.

Lemma C4_invariant_maintained_witness :
  invariant (mkSparseMatrix {[0 := {[0 := 10]}]} 1 1 2 2)
  ∧ (∀ m0 r c v m', invariant m0 → set_element m0 r c v = OK m' →
                    invariant m')
  ∧ (∀ m0 r c m', set_element m0 r c 0 = OK m' →
                  stored (matrix_data m') r c = None).
Proof.
  apply (C4_invariant_maintained ∅
           [OpNew (Int 2) (Int 2); OpSet 1 0 0 5; OpAdd 1 1] 2).
  vm_compute. reflexivity.
Defined.

(** ** Whitespace and [strip] *)

Lemma lstrip_all_space w : all_space w = true → lstrip w = [].
Proof.
  induction w as [|c w IH]; [done|]. simpl.
  intros [Hc Hw]%andb_true_iff. rewrite Hc. by apply IH.
Qed.

Lemma lstrip_app s t :
  lstrip (s ++ t) = if all_space s then lstrip t else lstrip s ++ t.
Proof.
  induction s as [|c s IH]; [done|]. simpl.
  destruct (isspace c); [done|done].
Qed.

Lemma all_space_rev w : all_space (rev w) = all_space w.
Proof.
  unfold all_space. apply eq_true_iff_eq. rewrite !forallb_forall.
  split; intros H x Hx; apply H; by apply in_rev in Hx || apply in_rev.
Qed.

Lemma all_space_app w1 w2 : all_space (w1 ++ w2) = all_space w1 && all_space w2.
Proof. apply forallb_app. Qed.

Lemma rstrip_app s t :
  rstrip (s ++ t) = if all_space t then rstrip s else s ++ rstrip t.
Proof.
  unfold rstrip. rewrite rev_app_distr, lstrip_app, all_space_rev.
  destruct (all_space t); [done|]. by rewrite rev_app_distr, rev_involutive.
Qed.

Lemma rstrip_all_space w : all_space w = true → rstrip w = [].
Proof.
  intros H. unfold rstrip. rewrite lstrip_all_space; [done|].
  by rewrite all_space_rev.
Qed.

Lemma lstrip_all_space_inv s : lstrip s = [] → all_space s = true.
Proof.
  induction s as [|c s IH]; [done|]. simpl.
  destruct (isspace c); [done|done].
Qed.

(** Whitespace before and after a text does not change what [strip]
    gives. *)
Lemma strip_pad w1 s w2 :
  all_space w1 = true → all_space w2 = true →
  strip (w1 ++ s ++ w2) = strip s.
Proof.
  intros H1 H2. unfold strip. rewrite lstrip_app, H1, lstrip_app.
  destruct (all_space s) eqn:Hs.
  - rewrite (lstrip_all_space w2 H2), (lstrip_all_space s Hs). done.
  - rewrite rstrip_app, H2. done.
Qed.

Lemma strip_pad_l w s : all_space w = true → strip (w ++ s) = strip s.
Proof.
  intros H. rewrite <- (app_nil_r s) at 1. by apply strip_pad.
Qed.

Lemma strip_pad_r s w : all_space w = true → strip (s ++ w) = strip s.
Proof. intros H. by apply (strip_pad [] s w). Qed.

(** A text that neither starts nor ends with whitespace is its own
    [strip]. *)
Lemma strip_trimmed c s d :
  isspace c = false → isspace d = false →
  strip (c :: s ++ [d]) = c :: s ++ [d].
Proof.
  intros Hc Hd. unfold strip. simpl. rewrite Hc.
  change (c :: s ++ [d]) with ((c :: s) ++ [d]).
  rewrite rstrip_app. simpl. rewrite Hd. simpl.
  unfold rstrip. simpl. by rewrite Hd.
Qed.

Lemma strip_single c : isspace c = false → strip [c] = [c].
Proof. intros Hc. unfold strip, rstrip. simpl. rewrite Hc. simpl. by rewrite Hc. Qed.

(** Every text is its [strip] between two runs of whitespace. *)
Lemma strip_decompose s :
  ∃ w1 w2, all_space w1 = true ∧ all_space w2 = true
           ∧ s = w1 ++ strip s ++ w2.
Proof.
  assert (∀ t, ∃ w, all_space w = true ∧ t = w ++ lstrip t) as Hl.
  { induction t as [|c t (w & Hw & Ht)]; [by exists []|]. simpl.
    destruct (isspace c) eqn:Hc.
    - exists (c :: w). simpl. rewrite Hc, Hw. split; [done|]. by rewrite <- Ht.
    - by exists []. }
  destruct (Hl s) as (w1 & Hw1 & Hs).
  destruct (Hl (rev (lstrip s))) as (w2 & Hw2 & Hr).
  exists w1, (rev w2). split_and!; [done|by rewrite all_space_rev|].
  unfold strip, rstrip. rewrite <- rev_app_distr, <- Hr, rev_involutive. done.
Qed.
(** ** [split] and [join] *)

Lemma split_cons_form sep s : ∃ h rest, split sep s = h :: rest.
Proof.
  induction s as [|c s (h & rest & IH)]; [by exists [], []|]. simpl.
  destruct (Ascii.eqb c sep); [by eexists _, _|]. rewrite IH. by eexists _, _.
Qed.

Lemma split_lacks sep s : lacks sep s = true → split sep s = [s].
Proof.
  induction s as [|c s IH]; [done|]. simpl.
  intros [Hc Hs]%andb_true_iff. apply negb_true_iff in Hc. rewrite Hc.
  by rewrite IH.
Qed.

Lemma split_prefix sep w t h rest :
  lacks sep w = true → split sep t = h :: rest →
  split sep (w ++ t) = (w ++ h) :: rest.
Proof.
  intros Hw Ht. induction w as [|c w IH]; [done|]. simpl in *.
  apply andb_true_iff in Hw as [Hc Hw]. apply negb_true_iff in Hc.
  rewrite Hc. by rewrite IH.
Qed.

Lemma split_app_sep sep s1 s2 :
  lacks sep s1 = true → split sep (s1 ++ sep :: s2) = s1 :: split sep s2.
Proof.
  intros H. rewrite (split_prefix sep s1 (sep :: s2) [] (split sep s2) H).
  - by rewrite app_nil_r.
  - simpl. by rewrite Ascii.eqb_refl.
Qed.

Lemma split_suffix sep t w :
  lacks sep w = true →
  ∃ init l, split sep t = init ++ [l] ∧ split sep (t ++ w) = init ++ [l ++ w].
Proof.
  intros Hw. induction t as [|c t (init & l & IH1 & IH2)].
  - exists [], []. simpl. by rewrite split_lacks.
  - simpl. destruct (Ascii.eqb c sep).
    + exists ([] :: init), l. by rewrite IH1, IH2.
    + rewrite IH1, IH2. destruct init as [|i0 init]; simpl.
      * by exists [], (c :: l).
      * by exists ((c :: i0) :: init), l.
Qed.

Lemma split_join sep f fields :
  forallb (lacks sep) (f :: fields) = true →
  split sep (join sep (f :: fields)) = f :: fields.
Proof.
  revert f. induction fields as [|g fields IH]; intros f H.
  - simpl in *. apply split_lacks. by apply andb_true_iff in H as [H _].
  - change (join sep (f :: g :: fields))
      with (f ++ sep :: join sep (g :: fields)).
    cbn [forallb] in H. apply andb_true_iff in H as [Hf H].
    rewrite split_app_sep by done. by rewrite IH.
Qed.

Lemma all_space_lacks sep w :
  isspace sep = false → all_space w = true → lacks sep w = true.
Proof.
  intros Hsep. induction w as [|c w IH]; [done|]. simpl.
  intros [Hc Hw]%andb_true_iff. rewrite IH by done.
  destruct (Ascii.eqb_spec c sep); [congruence|done].
Qed.

Lemma lacks_app ch s t : lacks ch (s ++ t) = lacks ch s && lacks ch t.
Proof. apply forallb_app. Qed.

(** Stripping the fields after splitting makes the whitespace around
    the whole text immaterial. *)
Lemma strip_fields_pad sep w1 t w2 :
  isspace sep = false → all_space w1 = true → all_space w2 = true →
  strip <$> split sep (w1 ++ t ++ w2) = strip <$> split sep t.
Proof.
  intros Hsep H1 H2.
  destruct (split_suffix sep t w2 (all_space_lacks _ _ Hsep H2))
    as (init & l & Ht & Htw).
  destruct (split_cons_form sep (t ++ w2)) as (h & rest & Hh).
  rewrite (split_prefix sep w1 (t ++ w2) h rest
             (all_space_lacks _ _ Hsep H1) Hh).
  rewrite fmap_cons, (strip_pad_l w1 h H1), <- fmap_cons, <- Hh, Htw, Ht.
  rewrite !fmap_app. simpl. by rewrite strip_pad_r.
Qed.

Lemma strip_fields_strip sep s :
  isspace sep = false →
  strip <$> split sep (strip s) = strip <$> split sep s.
Proof.
  intros Hsep. destruct (strip_decompose s) as (w1 & w2 & H1 & H2 & Hs).
  rewrite Hs at 2. by rewrite strip_fields_pad.
Qed.
(** ** Lines up to whitespace *)

Lemma strip_all_space w : all_space w = true → strip w = [].
Proof.
  intros H. unfold strip. by rewrite (lstrip_all_space w H).
Qed.

Lemma parse_header_raw_line d st line_num raw_line raw_line' line :
  parse_header d st line_num raw_line line
  = parse_header d st line_num raw_line' line.
Proof. reflexivity. Qed.

(** The loop body looks at the stripped line only. *)
Lemma parse_line_strip st line_num raw_line raw_line' :
  strip raw_line = strip raw_line' →
  parse_line st line_num raw_line = parse_line st line_num raw_line'.
Proof.
  intros H. unfold parse_line. rewrite H.
  by rewrite !(parse_header_raw_line _ _ _ raw_line raw_line').
Qed.

Lemma parse_line_blank st line_num raw_line :
  all_space raw_line = true → parse_line st line_num raw_line = OK st.
Proof.
  intros H. unfold parse_line. by rewrite (strip_all_space _ H).
Qed.

Lemma startswith_app p s : startswith (p ++ s) p = true.
Proof.
  induction p as [|c p IH]; [by destruct s|]. simpl.
  by rewrite Ascii.eqb_refl.
Qed.

(** The header value is read up to the next '=' and stripped, so the
    whitespace after the keyword is immaterial. *)
Lemma parse_header_pad d st line_num raw_line w rest :
  all_space w = true →
  parse_header d st line_num raw_line (header_keyword d ++ w ++ rest)
  = parse_header d st line_num raw_line (header_keyword d ++ rest).
Proof.
  intros Hw. unfold parse_header.
  assert (∀ t, ∃ h tl, split "=" (header_keyword d ++ t)
                       = (dim_name d ++ lit "s") :: h :: tl
                       ∧ split "=" t = h :: tl) as Hsplit.
  { intros t. destruct (split_cons_form "=" t) as (h & tl & Ht).
    exists h, tl. split; [|done]. rewrite <- Ht.
    destruct d;
      [exact (split_app_sep "=" (lit "rows") t eq_refl)
      |exact (split_app_sep "=" (lit "cols") t eq_refl)]. }
  destruct (split_cons_form "=" rest) as (h & tl & Hrest).
  destruct (Hsplit rest) as (h1 & tl1 & -> & Hr1).
  destruct (Hsplit (w ++ rest)) as (h2 & tl2 & -> & Hr2).
  rewrite (split_prefix "=" w rest h tl) in Hr2
    by (by apply all_space_lacks || done).
  rewrite Hrest in Hr1. injection Hr1 as <- <-. injection Hr2 as <- <-.
  simpl. by rewrite strip_pad_l.
Qed.

Lemma header_keyword_trimmed d rest :
  strip (header_keyword d ++ rest)
  = header_keyword d ++ (if all_space rest then [] else rstrip rest).
Proof.
  unfold strip.
  assert (lstrip (header_keyword d ++ rest) = header_keyword d ++ rest) as ->
    by (by destruct d).
  rewrite rstrip_app. destruct (all_space rest); [|done].
  rewrite app_nil_r. by destruct d.
Qed.

Lemma parse_line_header_keyword d st line_num raw_line rest :
  strip raw_line = header_keyword d ++ rest →
  parse_line st line_num raw_line
  = parse_header d st line_num raw_line (header_keyword d ++ rest).
Proof.
  intros H. unfold parse_line. rewrite H.
  rewrite bool_decide_false by (by destruct d).
  destruct d; unfold header_keyword.
  - by rewrite (startswith_app (lit "rows=") rest).
  - change (startswith (lit "cols=" ++ rest) (lit "rows=")) with false.
    by rewrite (startswith_app (lit "cols=") rest).
Qed.

Lemma parse_line_header_pad d st line_num w1 w2 value w3 :
  all_space w1 = true → all_space w2 = true → all_space w3 = true →
  parse_line st line_num (w1 ++ header_keyword d ++ w2 ++ value ++ w3)
  = parse_line st line_num (header_keyword d ++ value).
Proof.
  intros H1 H2 H3.
  assert (strip (w1 ++ header_keyword d ++ w2 ++ value ++ w3)
          = header_keyword d
            ++ (if all_space value then [] else w2 ++ rstrip value)) as Hs.
  { replace (w1 ++ header_keyword d ++ w2 ++ value ++ w3)
      with (w1 ++ (header_keyword d ++ w2 ++ value) ++ w3)
      by (by rewrite <- !app_assoc).
    rewrite strip_pad, header_keyword_trimmed by done.
    rewrite all_space_app, H2, rstrip_app. simpl.
    by destruct (all_space value). }
  pose proof (header_keyword_trimmed d value) as Hs'.
  destruct (all_space value).
  - apply parse_line_strip. by rewrite Hs, Hs'.
  - rewrite (parse_line_header_keyword d st line_num _ _ Hs).
    rewrite (parse_line_header_keyword d st line_num _ _ Hs').
    rewrite parse_header_pad by done. apply parse_header_raw_line.
Qed.
(** ** Data lines up to whitespace *)

Lemma strip_entry_line w1 J w2 :
  all_space w1 = true → all_space w2 = true →
  strip (w1 ++ lit "(" ++ J ++ lit ")" ++ w2) = "("%char :: J ++ [")"%char].
Proof.
  intros H1 H2.
  replace (w1 ++ lit "(" ++ J ++ lit ")" ++ w2)
    with (w1 ++ ("("%char :: J ++ [")"%char]) ++ w2)
    by (simpl; by rewrite <- !app_assoc).
  rewrite strip_pad by done. by apply strip_trimmed.
Qed.

Lemma slice_paren J : slice_1_m1 ("("%char :: J ++ [")"%char]) = J.
Proof.
  unfold slice_1_m1. simpl. rewrite drop_0, length_app. simpl.
  replace (length J + 1 - 1)%nat with (length J) by lia.
  by rewrite take_app_length.
Qed.

Lemma parse_line_entry st line_num raw_line J :
  strip raw_line = "("%char :: J ++ [")"%char] →
  parse_line st line_num raw_line
  = parse_entry st line_num ("("%char :: J ++ [")"%char]).
Proof.
  intros H. unfold parse_line. rewrite H.
  rewrite bool_decide_false by done.
  change (startswith ("("%char :: J ++ [")"%char]) (lit "rows=")) with false.
  change (startswith ("("%char :: J ++ [")"%char]) (lit "cols=")) with false.
  replace (startswith ("("%char :: J ++ [")"%char]) (lit "(")) with true
    by (symmetry; apply (startswith_app (lit "(") (J ++ [")"%char]))).
  replace (endswith ("("%char :: J ++ [")"%char]) (lit ")")) with true; [done|].
  unfold endswith.
  change ("("%char :: J ++ [")"%char]) with (("("%char :: J) ++ [")"%char]).
  rewrite rev_app_distr. symmetry.
  apply (startswith_app [")"%char] (rev ("("%char :: J))).
Qed.

(** [parse_entry] looks at the stripped fields of the line only. *)
Lemma parse_entry_fields st line_num line line' :
  strip <$> split "," (strip (slice_1_m1 line))
  = strip <$> split "," (strip (slice_1_m1 line')) →
  parse_entry st line_num line = parse_entry st line_num line'.
Proof. intros H. unfold parse_entry. by rewrite H. Qed.

Lemma field_variant_strip f f' :
  field_variant f f' → strip f = strip f' ∧ lacks "," f = true
                       ∧ lacks "," f' = true.
Proof.
  intros [token wa wb wa' wb' Ha Hb Ha' Hb' Ht].
  rewrite !strip_pad by done. rewrite !lacks_app, Ht.
  by rewrite !(all_space_lacks ",").
Qed.

Lemma fields_variant_strip fields fields' :
  Forall2 field_variant fields fields' →
  strip <$> split "," (join "," fields)
  = strip <$> split "," (join "," fields').
Proof.
  intros H.
  assert (strip <$> fields = strip <$> fields'
          ∧ forallb (lacks ",") fields = true
          ∧ forallb (lacks ",") fields' = true) as (Hs & Hl & Hl').
  { induction H as [|f f' fs fs' Hf _ (IH1 & IH2 & IH3)]; [done|].
    destruct (field_variant_strip f f' Hf) as (H1 & H2 & H3).
    cbn [forallb]. rewrite !fmap_cons, H1, H2, H3, IH1, IH2, IH3. done. }
  destruct H as [|f f' fs fs' _ _]; [done|].
  by rewrite !split_join.
Qed.

Lemma parse_line_entry_pad st line_num w1 w2 w1' w2' fields fields' :
  Forall2 field_variant fields fields' →
  all_space w1 = true → all_space w2 = true →
  all_space w1' = true → all_space w2' = true →
  parse_line st line_num (w1 ++ lit "(" ++ join "," fields ++ lit ")" ++ w2)
  = parse_line st line_num
      (w1' ++ lit "(" ++ join "," fields' ++ lit ")" ++ w2').
Proof.
  intros Hf H1 H2 H1' H2'.
  rewrite (parse_line_entry st line_num _ (join "," fields))
    by (by apply strip_entry_line).
  rewrite (parse_line_entry st line_num _ (join "," fields'))
    by (by apply strip_entry_line).
  apply parse_entry_fields. rewrite !slice_paren.
  rewrite !(strip_fields_strip ",") by done.
  by apply fields_variant_strip.
Qed.

(** Two renderings of a line are treated alike, failures included. *)
Lemma line_variant_parse st line_num raw_line raw_line' :
  line_variant raw_line raw_line' →
  parse_line st line_num raw_line = parse_line st line_num raw_line'.
Proof.
  intros [s w1 w2 w1' w2' H1 H2 H1' H2'
         |d value w1 w2 w3 w1' w2' w3' H1 H2 H3 H1' H2' H3'
         |fields fields' w1 w2 w1' w2' Hf H1 H2 H1' H2'].
  - apply parse_line_strip. by rewrite !strip_pad.
  - by rewrite !parse_line_header_pad.
  - by apply parse_line_entry_pad.
Qed.

Lemma line_variant_sym raw_line raw_line' :
  line_variant raw_line raw_line' → line_variant raw_line' raw_line.
Proof.
  intros [s w1 w2 w1' w2' H1 H2 H1' H2'
         |d value w1 w2 w3 w1' w2' w3' H1 H2 H3 H1' H2' H3'
         |fields fields' w1 w2 w1' w2' Hf H1 H2 H1' H2'].
  - by apply lv_outer.
  - by apply lv_header.
  - apply lv_entry; try done. clear -Hf.
    induction Hf as [|f f' fs fs' Hf _ IH]; constructor; [|done].
    destruct Hf. by constructor.
Qed.

Lemma file_variant_sym ls ls' : file_variant ls ls' → file_variant ls' ls.
Proof.
  induction 1; [constructor|constructor; [by apply line_variant_sym|done]
               |by constructor|by constructor].
Qed.
(** ** Accepted lines do not depend on their number *)

Lemma parse_header_ok d st line_num raw_line line v z :
  parsed d st = false → split "=" line !! 1%nat = Some v →
  _is_valid_int (strip v) = true → py_int (strip v) = OK z → -1 ≤ z →
  parse_header d st line_num raw_line line
  = OK (set_parsed d (set_dimension (self_of st) d z) st).
Proof.
  intros Hp Hs Hv Hi Hz. unfold parse_header, _validate_and_set_dimension.
  rewrite Hp, Hs. cbn [mbind result_bind]. rewrite Hv, Hi.
  cbn [negb mbind result_bind]. by destruct (Z.ltb_spec z (-1)); [lia|].
Qed.

Lemma parse_line_line_num st n n' raw_line st' :
  parse_line st n raw_line = OK st' → parse_line st n' raw_line = OK st'.
Proof.
  intros Hok.
  destruct (parse_line_cases st n raw_line)
    as [(e0 & He0 & _)|[(Hblank & Hst)
       |[(d & v0 & z & Hp & Hz & Hsw & Hsp & Hv & Hi & Hst)
        |(r0 & c0 & v0 & Hd & Hpr & Hpc & Hb & Hst)]]];
    rewrite Hok in *; try done.
  - injection Hst as ->. unfold parse_line. by rewrite Hblank.
  - rewrite Hst. unfold parse_line. destruct d.
    + destruct (startswith_cons _ "r" (lit "ows=") Hsw) as (s' & Hs' & _).
      rewrite bool_decide_false by (by rewrite Hs').
      rewrite Hsw. by apply (parse_header_ok row st n' _ _ v0 z).
    + destruct (startswith_cons _ "c" (lit "ols=") Hsw) as (s' & Hs' & _).
      rewrite bool_decide_false by (by rewrite Hs').
      replace (startswith (strip raw_line) (lit "rows=")) with false
        by (by rewrite Hs').
      rewrite Hsw. by apply (parse_header_ok col st n' _ _ v0 z).
  - rewrite Hst. by apply parse_line_data.
Qed.

(** Two renderings of a file are accepted alike. *)
Lemma file_variant_parse ls ls' :
  file_variant ls ls' →
  ∀ st n n' st', parse_lines st n ls = OK st' →
                 parse_lines st n' ls' = OK st'.
Proof.
  induction 1 as [|raw raw' ls ls' Hl _ IH|raw ls ls' Hb _ IH
                 |raw ls ls' Hb _ IH]; intros st n n' st' Hok.
  - done.
  - cbn [parse_lines] in *.
    destruct (parse_line st n raw) as [st1|] eqn:Hraw; [|done].
    rewrite <- (line_variant_parse st n' raw raw' Hl).
    rewrite (parse_line_line_num st n n' raw st1 Hraw).
    by apply (IH st1 (n + 1)).
  - cbn [parse_lines] in Hok. rewrite parse_line_blank in Hok by done.
    by apply (IH st (n + 1)).
  - cbn [parse_lines]. rewrite parse_line_blank by done.
    by apply (IH st n).
Qed.

(** C9, as the code has it: whitespace at the ends of a line, between
    the '=' of a header and its value and after that value, and around
    the fields of a data line, and blank lines anywhere, change neither
    whether a file loads nor the matrix it loads as. *)
Theorem C9_whitespace_ignored (fs fs' : filesystem)
    (file_path file_path' : str) (num_cols num_cols' : arg)
    (content content' : str) (M : SparseMatrix) :
  fs !! file_path = Some content →
  fs' !! file_path' = Some content' →
  file_variant (readlines content) (readlines content') →
  __init__ fs (Str file_path) num_cols = OK M
  ↔ __init__ fs' (Str file_path') num_cols' = OK M.
Proof.
  intros Hfs Hfs' Hv.
  rewrite (init_file_run _ _ _ _ Hfs), (init_file_run _ _ _ _ Hfs').
  assert (∀ l1 l2, file_variant l1 l2 →
    (st ← parse_lines initial_state 0 l1;
     if negb (parsed_rows st) || negb (parsed_cols st)
     then Raise MissingHeaders else OK (self_of st)) = OK M →
    (st ← parse_lines initial_state 0 l2;
     if negb (parsed_rows st) || negb (parsed_cols st)
     then Raise MissingHeaders else OK (self_of st)) = OK M) as Hdir.
  { intros l1 l2 H12 Hrun.
    destruct (parse_lines initial_state 0 l1) as [st|] eqn:Hl1; [|done].
    by rewrite (file_variant_parse l1 l2 H12 _ _ 0 _ Hl1). }
  split; apply Hdir; [done|by apply file_variant_sym].
Qed.

Lemma C9_whitespace_ignored_witness :
  load (text ["rows=1"; "cols=1"; "(0,0,5)"]) = OK (mkSparseMatrix {[0 := {[0 := 5]}]} 1 1 2 2)
  ↔ load (text ["  rows= 1"; ""; "cols=1  "; "( 0 , 0,5 )"])
    = OK (mkSparseMatrix {[0 := {[0 := 5]}]} 1 1 2 2).
Proof.
  apply (C9_whitespace_ignored _ _ _ _ _ _
           (text ["rows=1"; "cols=1"; "(0,0,5)"])
           (text ["  rows= 1"; ""; "cols=1  "; "( 0 , 0,5 )"]));
    [reflexivity|reflexivity|].
  change (readlines (text ["rows=1"; "cols=1"; "(0,0,5)"]))
    with [lit "rows=1" ++ [LF]; lit "cols=1" ++ [LF]; lit "(0,0,5)" ++ [LF]].
  change (readlines (text ["  rows= 1"; ""; "cols=1  "; "( 0 , 0,5 )"]))
    with [lit "  rows= 1" ++ [LF]; [LF]; lit "cols=1  " ++ [LF];
          lit "( 0 , 0,5 )" ++ [LF]].
  apply fv_line.
  { apply (lv_header row (lit "1") [] [] [LF] (lit "  ") (lit " ") [LF]);
      reflexivity. }
  apply fv_blank_r; [reflexivity|].
  apply fv_line.
  { apply (lv_outer (lit "cols=1") [] [LF] [] (lit "  " ++ [LF])); reflexivity. }
  apply fv_line; [|apply fv_nil].
  apply (lv_entry [lit "0"; lit "0"; lit "5"]
                  [lit " 0 "; lit " 0"; lit "5 "] [] [LF] [] [LF]);
    try reflexivity.
  repeat constructor.
  - apply (field_padded (lit "0") [] [] (lit " ") (lit " ")); reflexivity.
  - apply (field_padded (lit "0") [] [] (lit " ") []); reflexivity.
  - apply (field_padded (lit "5") [] [] [] (lit " ")); reflexivity.
Defined.

(** C9 as stated fails: a space before the '=' of a header line is not
    ignored.  The file with the lines "rows=1" and "cols=1" loads, and
    the same file with "rows =1" as its first line is rejected as an
    unrecognized line. *)
Lemma C9_counterexample :
  load (text ["rows=1"; "cols=1"]) = OK (mkSparseMatrix ∅ 1 1 2 2)
  ∧ load (text ["rows =1"; "cols=1"]) = Raise (UnrecognizedLine 0)
  ∧ line_variant (lit "rows=1" ++ [LF]) (lit "rows= 1 " ++ [LF])
  ∧ load (text ["rows= 1 "; "cols=1"]) = OK (mkSparseMatrix ∅ 1 1 2 2).
Proof.
  split_and!; try (vm_compute; reflexivity).
  apply (lv_header row (lit "1") [] [] [LF] [] (lit " ") (lit " " ++ [LF]));
    reflexivity.
Qed.

(** ** Decimal numerals *)

Lemma int_char_facts c :
  int_char c = true →
  isspace c = false ∧ Ascii.eqb c "," = false ∧ Ascii.eqb c "=" = false
  ∧ Ascii.eqb c LF = false ∧ Ascii.eqb c CR = false.
Proof. destruct c as [[] [] [] [] [] [] [] []]; done. Qed.

Lemma is_decimal_facts c :
  is_decimal c = true →
  isdigit_char c = true ∧ Ascii.eqb c "+" = false ∧ Ascii.eqb c "-" = false
  ∧ int_char c = true.
Proof. destruct c as [[] [] [] [] [] [] [] []]; done. Qed.

Lemma digit_char_spec d :
  0 ≤ d ≤ 9 → is_decimal (digit_char d) = true ∧ code (digit_char d) - 48 = d.
Proof.
  intros H.
  assert (d = 0 ∨ d = 1 ∨ d = 2 ∨ d = 3 ∨ d = 4 ∨ d = 5 ∨ d = 6 ∨ d = 7
          ∨ d = 8 ∨ d = 9) as Hd by lia.
  by repeat (destruct Hd as [->|Hd]; [done|]); subst.
Qed.

Lemma digits_value_snoc s c :
  digits_value (s ++ [c]) = 10 * digits_value s + (code c - 48).
Proof. unfold digits_value. by rewrite foldl_app. Qed.

Lemma digits_le_spec fuel n :
  0 ≤ n → (Z.to_nat n < fuel)%nat →
  digits_le fuel n ≠ []
  ∧ forallb is_decimal (digits_le fuel n) = true
  ∧ digits_value (rev (digits_le fuel n)) = n.
Proof.
  revert n. induction fuel as [|fuel IH]; intros n Hn Hf; [lia|].
  cbn [digits_le].
  destruct (digit_char_spec (n mod 10)) as [Hdec Hcode];
    [pose proof (Z.mod_pos_bound n 10); lia|].
  split; [done|]. cbn [forallb rev]. rewrite Hdec, digits_value_snoc, Hcode.
  destruct (Z.ltb_spec n 10) as [Hlt|Hge].
  - split; [done|]. change (digits_value (rev [])) with 0.
    rewrite Z.mod_small by lia. lia.
  - destruct (IH (n / 10)) as (_ & Hall & Hval).
    + apply Z.div_pos; lia.
    + assert (n / 10 < n) by (apply Z.div_lt; lia).
      assert (0 ≤ n / 10) by (apply Z.div_pos; lia). lia.
    + rewrite Hall, Hval. split; [done|].
      pose proof (Z.div_mod n 10). lia.
Qed.

Lemma forallb_rev {A} (f : A → bool) l : forallb f (rev l) = forallb f l.
Proof.
  apply eq_true_iff_eq. rewrite !forallb_forall.
  split; intros H x Hx; apply H; by apply in_rev in Hx || apply in_rev.
Qed.

Lemma str_of_nonneg_spec n :
  0 ≤ n →
  str_of_nonneg n ≠ []
  ∧ forallb is_decimal (str_of_nonneg n) = true
  ∧ digits_value (str_of_nonneg n) = n.
Proof.
  intros Hn. unfold str_of_nonneg.
  destruct (digits_le_spec (S (Z.to_nat n)) n Hn ltac:(lia)) as (H1 & H2 & H3).
  split_and!; [|by rewrite forallb_rev|done].
  intros H. apply H1. by rewrite <- (rev_involutive (digits_le _ _)), H.
Qed.

Lemma forallb_impl {A} (f g : A → bool) l :
  (∀ x, f x = true → g x = true) → forallb f l = true → forallb g l = true.
Proof.
  intros Hfg. rewrite !forallb_forall. intros H x Hx. by apply Hfg, H.
Qed.

(** ** The digit limit *)

Lemma decimal_run_all ds :
  forallb is_decimal ds = true → decimal_run ds = length ds.
Proof.
  induction ds as [|c ds IH]; [done|]. simpl.
  intros [-> H]%andb_true_iff. by rewrite IH.
Qed.

Lemma digits_le_length k fuel n :
  0 ≤ n < 10 ^ Z.of_nat (S k) → (length (digits_le fuel n) ≤ S k)%nat.
Proof.
  revert fuel n. induction k as [|k IH]; intros fuel n Hn.
  - destruct fuel as [|fuel]; [simpl; lia|]. cbn [digits_le].
    change (10 ^ Z.of_nat 1) with 10 in Hn.
    destruct (Z.ltb_spec n 10); [simpl; lia|lia].
  - destruct fuel as [|fuel]; [simpl; lia|]. cbn [digits_le length].
    destruct (Z.ltb_spec n 10); [simpl; lia|].
    apply le_n_S, IH. split; [apply Z.div_pos; lia|].
    apply Z.div_lt_upper_bound; [lia|].
    rewrite (Nat2Z.inj_succ (S k)), Z.pow_succ_r in Hn by lia. lia.
Qed.

Lemma str_of_nonneg_length n :
  0 ≤ n < max_str_value →
  (length (str_of_nonneg n) ≤ int_max_str_digits)%nat.
Proof.
  intros Hn. unfold str_of_nonneg. rewrite length_rev.
  by apply (digits_le_length 4299).
Qed.

Lemma within_limit ds :
  forallb is_decimal ds = true → (length ds ≤ int_max_str_digits)%nat →
  (int_max_str_digits <? decimal_run ds)%nat = false.
Proof.
  intros Hall Hlen. rewrite decimal_run_all by done. by apply Nat.ltb_ge.
Qed.

(** [int(str(z))] is [z] for the integers [str()] renders. *)
Lemma py_int_str_of_Z z : renderable z → py_int (str_of_Z z) = OK z.
Proof.
  unfold renderable, str_of_Z. intros Hz.
  destruct (Z.ltb_spec z 0) as [Hneg|Hpos].
  - destruct (str_of_nonneg_spec (- z) ltac:(lia)) as (Hne & Hall & Hval).
    unfold py_int. cbn [lit list_ascii_of_string app].
    change (Ascii.eqb "-" "+") with false. change (Ascii.eqb "-" "-") with true.
    cbv iota.
    rewrite within_limit by (done || apply str_of_nonneg_length; lia).
    rewrite Hall, Hval, bool_decide_false by done. simpl. f_equal. lia.
  - destruct (str_of_nonneg_spec z Hpos) as (Hne & Hall & Hval).
    pose proof (str_of_nonneg_length z ltac:(lia)) as Hlen.
    unfold py_int. destruct (str_of_nonneg z) as [|c ds] eqn:Hs; [done|].
    pose proof Hall as Hall'.
    cbn [forallb] in Hall. apply andb_true_iff in Hall as [Hc Hds].
    destruct (is_decimal_facts c Hc) as (_ & -> & -> & _).
    rewrite within_limit by done.
    rewrite bool_decide_false by done. by rewrite Hall', Hval.
Qed.


Lemma py_str_not_renderable z :
  ¬ renderable z → py_str z = Raise exceeds_limit_str.
Proof.
  unfold renderable, py_str. intros Hz.
  by destruct (Z.leb_spec max_str_value (Z.abs z)); [|lia].
Qed.

Lemma str_of_Z_chars z :
  str_of_Z z ≠ [] ∧ forallb int_char (str_of_Z z) = true.
Proof.
  unfold str_of_Z. destruct (Z.ltb_spec z 0) as [Hneg|Hpos].
  - destruct (str_of_nonneg_spec (- z) ltac:(lia)) as (_ & Hall & _).
    split; [done|]. simpl.
    apply (forallb_impl is_decimal); [|done]. intros c Hc.
    by destruct (is_decimal_facts c Hc) as (_ & _ & _ & ?).
  - destruct (str_of_nonneg_spec z Hpos) as (Hne & Hall & _).
    split; [done|].
    apply (forallb_impl is_decimal); [|done]. intros c Hc.
    by destruct (is_decimal_facts c Hc) as (_ & _ & _ & ?).
Qed.

Lemma strip_no_space s :
  forallb (λ c, negb (isspace c)) s = true → strip s = s.
Proof.
  intros H. destruct s as [|c s]; [done|].
  destruct (exists_last (l := c :: s) ltac:(done)) as (s' & d & Hs).
  assert (isspace c = false ∧ isspace d = false) as [Hc Hd].
  { rewrite forallb_forall in H. split; apply negb_true_iff, H.
    - by left.
    - rewrite Hs. apply in_or_app. right. by left. }
  destruct s' as [|c' s'].
  - injection Hs as -> ->. by apply strip_single.
  - injection Hs as <- ->. by apply strip_trimmed.
Qed.

Lemma str_of_Z_strip z : strip (str_of_Z z) = str_of_Z z.
Proof.
  apply strip_no_space.
  apply (forallb_impl int_char); [|apply str_of_Z_chars].
  intros c Hc. by destruct (int_char_facts c Hc) as (-> & _).
Qed.

Lemma str_of_Z_lacks z :
  lacks "," (str_of_Z z) = true ∧ lacks "=" (str_of_Z z) = true
  ∧ lacks LF (str_of_Z z) = true ∧ lacks CR (str_of_Z z) = true.
Proof.
  split_and!; (apply (forallb_impl int_char); [|apply str_of_Z_chars]);
    intros c Hc; destruct (int_char_facts c Hc) as (_ & H1 & H2 & H3 & H4);
    by rewrite ?H1, ?H2, ?H3, ?H4.
Qed.

(** The validity check accepts every decimal numeral. *)
Lemma is_valid_int_str_of_Z z : _is_valid_int (str_of_Z z) = true.
Proof.
  unfold _is_valid_int. rewrite str_of_Z_strip.
  unfold str_of_Z. destruct (Z.ltb_spec z 0) as [Hneg|Hpos].
  - destruct (str_of_nonneg_spec (- z) ltac:(lia)) as (Hne & Hall & _).
    simpl. unfold isdigit. rewrite bool_decide_false by done.
    rewrite (forallb_impl is_decimal isdigit_char _
               (λ c Hc, proj1 (is_decimal_facts c Hc)) Hall).
    destruct (str_of_nonneg (- z)); [done|]. done.
  - destruct (str_of_nonneg_spec z Hpos) as (Hne & Hall & _).
    pose proof (forallb_impl is_decimal isdigit_char _
                  (λ c Hc, proj1 (is_decimal_facts c Hc)) Hall) as Hdig.
    destruct (str_of_nonneg z) as [|c ds] eqn:Hs; [done|].
    cbn [forallb] in Hall. apply andb_true_iff in Hall as [Hc Hds].
    destruct (is_decimal_facts c Hc) as (_ & -> & -> & _). simpl.
    unfold isdigit. by rewrite bool_decide_false, Hdig.
Qed.
(** ** What [save_to_file] writes *)








(** ** Reading back what was written *)

Lemma readlines_prepend a t l ls :
  lacks LF a = true → lacks CR a = true → readlines t = l :: ls →
  readlines (a ++ t) = (a ++ l) :: ls.
Proof.
  intros H1 H2 Ht. induction a as [|c a IH]; [done|].
  cbn [lacks forallb] in H1, H2.
  apply andb_true_iff in H1 as [Hc1 H1]. apply andb_true_iff in H2 as [Hc2 H2].
  apply negb_true_iff in Hc1, Hc2.
  change ((c :: a) ++ t) with (c :: (a ++ t)). cbn [readlines].
  rewrite Hc1, Hc2. by rewrite IH.
Qed.

Lemma readlines_line a rest :
  lacks LF a = true → lacks CR a = true →
  readlines (a ++ LF :: rest) = (a ++ [LF]) :: readlines rest.
Proof. intros H1 H2. by apply readlines_prepend. Qed.

Lemma readlines_lines (ls : list str) :
  Forall (λ l, lacks LF l = true ∧ lacks CR l = true) ls →
  readlines (concat ((λ l, l ++ [LF]) <$> ls)) = (λ l, l ++ [LF]) <$> ls.
Proof.
  induction 1 as [|l ls [H1 H2] _ IH]; [done|].
  rewrite fmap_cons. cbn [concat]. rewrite <- app_assoc.
  change ([LF] ++ ?x) with (LF :: x).
  by rewrite readlines_line, IH.
Qed.




(** A header line as [save_to_file] writes it sets the dimension. *)
Lemma parse_line_header_numeral d st line_num z :
  parsed d st = false → -1 ≤ z → renderable z →
  parse_line st line_num (header_keyword d ++ str_of_Z z ++ [LF])
  = OK (set_parsed d (set_dimension (self_of st) d z) st).
Proof.
  intros Hp Hz Rz.
  change (header_keyword d ++ str_of_Z z ++ [LF])
    with ([] ++ header_keyword d ++ [] ++ str_of_Z z ++ [LF]).
  rewrite (parse_line_header_pad d st line_num [] [] (str_of_Z z) [LF]
             eq_refl eq_refl eq_refl).
  rewrite (parse_line_header_keyword d st line_num _ (str_of_Z z)).
  - apply (parse_header_ok d st line_num _ _ (str_of_Z z) z); try done.
    + destruct (str_of_Z_lacks z) as (_ & Heq & _).
      destruct d; unfold header_keyword.
      * change (lit "rows=" ++ str_of_Z z)
          with (lit "rows" ++ "="%char :: str_of_Z z).
        rewrite (split_app_sep "=" (lit "rows") (str_of_Z z) eq_refl).
        by rewrite split_lacks.
      * change (lit "cols=" ++ str_of_Z z)
          with (lit "cols" ++ "="%char :: str_of_Z z).
        rewrite (split_app_sep "=" (lit "cols") (str_of_Z z) eq_refl).
        by rewrite split_lacks.
    + rewrite str_of_Z_strip. apply is_valid_int_str_of_Z.
    + rewrite str_of_Z_strip. by apply py_int_str_of_Z.
  - rewrite header_keyword_trimmed.
    pose proof (str_of_Z_strip z) as Hs. unfold strip in Hs.
    destruct (all_space (str_of_Z z)) eqn:Ha.
    + rewrite (lstrip_all_space _ Ha) in Hs. unfold rstrip in Hs.
      simpl in Hs. by rewrite <- Hs.
    + f_equal. rewrite <- Hs at 2. f_equal.
      destruct (str_of_Z z) as [|ch t] eqn:Hstr; [done|].
      simpl in Ha |- *. destruct (isspace ch) eqn:Hch; [|done].
      exfalso. destruct (str_of_Z_chars z) as [_ Hall]. rewrite Hstr in Hall.
      cbn [forallb] in Hall. apply andb_true_iff in Hall as [Hi _].
      destruct (int_char_facts ch Hi). congruence.
Qed.

(** ** The round trip *)





(** ** Saving *)





(** ** Loading what was saved *)


Lemma foldl_update_declared f l m :
  file_declared_max_row (foldl (update f) m l) = file_declared_max_row m
  ∧ file_declared_max_col (foldl (update f) m l) = file_declared_max_col m.
Proof.
  revert m. induction l as [|[[r c] v] l IH]; intros m; [done|].
  cbn [foldl]. by destruct (IH (update f m (r, c, v))) as [-> ->].
Qed.





(** ** Header values and the dimension they set *)

Lemma contains_lacks ch hay needle :
  lacks ch hay = true → contains hay (ch :: needle) = false.
Proof.
  induction hay as [|a hay IH]; [done|]. cbn [lacks forallb contains startswith].
  intros [Ha Hhay]%andb_true_iff. fold (lacks ch hay) in Hhay.
  rewrite (IH Hhay), orb_false_r.
  destruct (Ascii.eqb_spec ch a) as [->|]; [|done].
  by rewrite Ascii.eqb_refl in Ha.
Qed.

Lemma isdigit_char_not_I c :
  isspace c || isdigit_char c || Ascii.eqb c "+" || Ascii.eqb c "-" = true →
  negb (Ascii.eqb c "I") = true.
Proof. destruct c as [[] [] [] [] [] [] [] []]; done. Qed.

Lemma valid_int_lacks_I s : _is_valid_int s = true → lacks "I" s = true.
Proof.
  intros Hv. unfold lacks.
  apply (forallb_impl
           (λ c, isspace c || isdigit_char c || Ascii.eqb c "+"
                 || Ascii.eqb c "-")); [apply isdigit_char_not_I|].
  destruct (strip_decompose s) as (w1 & w2 & H1 & H2 & Hs).
  unfold _is_valid_int in Hv. rewrite Hs, !forallb_app.
  assert (∀ w, all_space w = true →
               forallb (λ c, isspace c || isdigit_char c || Ascii.eqb c "+"
                             || Ascii.eqb c "-") w = true) as Hw.
  { intros w. apply forallb_impl. by intros c ->. }
  assert (∀ w, forallb isdigit_char w = true →
               forallb (λ c, isspace c || isdigit_char c || Ascii.eqb c "+"
                             || Ascii.eqb c "-") w = true) as Hd.
  { intros w. apply forallb_impl. intros c ->. by rewrite orb_true_r. }
  rewrite (Hw w1 H1), (Hw w2 H2), andb_true_r. cbn [andb].
  destruct (strip s) as [|c0 rest]; [done|].
  destruct (Ascii.eqb c0 "+" || Ascii.eqb c0 "-") eqn:Hc0.
  - apply andb_true_iff in Hv as [_ Hv]. unfold isdigit in Hv.
    apply andb_true_iff in Hv as [_ Hv]. cbn [forallb].
    rewrite (Hd rest Hv), andb_true_r.
    apply orb_true_iff in Hc0 as [->| ->]; by rewrite ?orb_true_r.
  - unfold isdigit in Hv. apply andb_true_iff in Hv as [_ Hv].
    by apply Hd.
Qed.

(** What [int()] raises on a string that [_is_valid_int] accepts carries
    no format prefix, so the handler of the header branch replaces it. *)
Lemma int_failure_replaced s e :
  _is_valid_int s = true → int_failure s e →
  ∃ m, e = ValueError m
       ∧ contains m (lit "Input file has wrong format") = false.
Proof.
  intros Hv [|n]; eexists; (split; [reflexivity|]);
    apply (contains_lacks "I"); rewrite !lacks_app.
  - by rewrite (valid_int_lacks_I s Hv).
  - replace (lacks "I" (str_of_Z (Z.of_nat n))) with true; [done|].
    symmetry. apply (forallb_impl int_char); [|apply str_of_Z_chars].
    intros c Hc. apply isdigit_char_not_I.
    unfold int_char in Hc. apply orb_true_iff in Hc as [Hc| ->].
    + destruct (is_decimal_facts c Hc) as (-> & _). by rewrite orb_true_r.
    + by rewrite orb_true_r.
Qed.

Lemma parse_header_int_raises d st line_num raw_line line v e :
  parsed d st = false →
  split "=" line !! 1%nat = Some v →
  _is_valid_int (strip v) = true →
  py_int (strip v) = Raise e →
  parse_header d st line_num raw_line line
  = Raise (MalformedHeaderLine d line_num).
Proof.
  intros Hp Hs Hv He.
  destruct (py_int_cases (strip v)) as [[z Hz]|(e' & He' & Hf)];
    [congruence|].
  rewrite He in He'. injection He' as <-.
  destruct (int_failure_replaced _ _ Hv Hf) as (m & -> & Hm).
  unfold parse_header, _validate_and_set_dimension.
  rewrite Hp, Hs. cbn [mbind result_bind]. rewrite Hv, He.
  cbn [negb mbind result_bind str_of_exn]. by rewrite Hm.
Qed.

(** A file of two headers alone loads as the matrix of the declared
    dimensions, without entries. *)
Lemma load_headers fs file_path num_cols z1 z2 :
  -1 ≤ z1 → -1 ≤ z2 → renderable z1 → renderable z2 →
  fs !! file_path
  = Some (lit "rows=" ++ str_of_Z z1 ++ [LF]
          ++ lit "cols=" ++ str_of_Z z2 ++ [LF]) →
  __init__ fs (Str file_path) num_cols
  = OK (mkSparseMatrix ∅ z1 z2 (z1 + 1) (z2 + 1)).
Proof.
  intros H1 H2 R1 R2 Hfs. rewrite (init_file_run _ _ _ _ Hfs).
  destruct (str_of_Z_lacks z1) as (_ & _ & Hr1 & Hr2).
  destruct (str_of_Z_lacks z2) as (_ & _ & Hc1 & Hc2).
  repeat change ([LF] ++ ?x) with (LF :: x).
  rewrite (app_assoc (lit "rows=")).
  rewrite (readlines_line (lit "rows=" ++ str_of_Z z1))
    by (by rewrite lacks_app, ?Hr1, ?Hr2).
  rewrite (app_assoc (lit "cols=")).
  rewrite (readlines_line (lit "cols=" ++ str_of_Z z2) [])
    by (by rewrite lacks_app, ?Hc1, ?Hc2).
  change (readlines []) with (@nil str).
  cbn [parse_lines]. rewrite <- !app_assoc.
  change (lit "rows=") with (header_keyword row).
  change (lit "cols=") with (header_keyword col).
  rewrite (parse_line_header_numeral row initial_state 0 z1) by done.
  cbn [mbind result_bind].
  rewrite (parse_line_header_numeral col _ (0 + 1) z2) by done.
  reflexivity.
Qed.

(** C7, as the code has it: a header whose value [int()] reads as a
    number of at least -1 is accepted, and in the state the header branch
    returns the dimension is that number plus one (0 for -1), the header
    is marked as seen and the entries are untouched; a value that reads
    as a number below -1 is rejected with the header-out-of-range
    failure; a value that [_is_valid_int] accepts and [int()] refuses (a
    numeral of more than 4300 digits, of any sign) is rejected with the
    malformed-header failure of that line.  A file of the two headers
    rows=z1 and cols=z2 loads as the (z1+1) by (z2+1) matrix without
    entries, and the file declaring rows=-1 and cols=-1 as the 0 by 0
    matrix. *)
Theorem C7_header_value_plus_one (d : dim_type) (st : parse_state)
    (line_num : Z) (raw_line line v : str) :
  parsed d st = false →
  split "=" line !! 1%nat = Some v →
  _is_valid_int (strip v) = true →
  (∀ declared_max,
     py_int (strip v) = OK declared_max → -1 ≤ declared_max →
     ∃ st', parse_header d st line_num raw_line line = OK st'
            ∧ st' = set_parsed d (set_dimension (self_of st) d declared_max) st
            ∧ dimension d (self_of st') = declared_max + 1
            ∧ (declared_max = -1 → dimension d (self_of st') = 0)
            ∧ parsed d st' = true
            ∧ matrix_data (self_of st') = matrix_data (self_of st))
  ∧ (∀ declared_max,
       py_int (strip v) = OK declared_max → declared_max < -1 →
       parse_header d st line_num raw_line line = Raise (HeaderOutOfRange d))
  ∧ (∀ e, py_int (strip v) = Raise e →
          parse_header d st line_num raw_line line
          = Raise (MalformedHeaderLine d line_num))
  ∧ (∀ fs file_path num_cols z1 z2,
       -1 ≤ z1 → -1 ≤ z2 → renderable z1 → renderable z2 →
       fs !! file_path = Some (lit "rows=" ++ str_of_Z z1 ++ [LF]
                               ++ lit "cols=" ++ str_of_Z z2 ++ [LF]) →
       ∃ m, __init__ fs (Str file_path) num_cols = OK m
            ∧ rows m = z1 + 1 ∧ cols m = z2 + 1 ∧ matrix_data m = ∅)
  ∧ (∀ fs file_path num_cols,
       fs !! file_path = Some (text ["rows=-1"; "cols=-1"]) →
       ∃ m, __init__ fs (Str file_path) num_cols = OK m
            ∧ rows m = 0 ∧ cols m = 0 ∧ matrix_data m = ∅).
Proof.
  intros Hp Hs Hv. split_and!.
  - intros z Hi Hz. eexists. split_and!; [|reflexivity|..].
    + unfold parse_header, _validate_and_set_dimension.
      rewrite Hp, Hs. cbn [mbind result_bind]. rewrite Hv, Hi.
      cbn [negb mbind result_bind].
      destruct (Z.ltb_spec z (-1)); [lia|]. by destruct d.
    + by destruct d.
    + intros ->. by destruct d.
    + by destruct d.
    + by destruct d.
  - intros z Hi Hz. unfold parse_header, _validate_and_set_dimension.
    rewrite Hp, Hs. cbn [mbind result_bind]. rewrite Hv, Hi.
    cbn [negb mbind result_bind].
    destruct (Z.ltb_spec z (-1)); [|lia].
    by rewrite format_prefix_range.
  - intros e He. by apply (parse_header_int_raises d st line_num _ _ v e).
  - intros fs file_path num_cols z1 z2 H1 H2 R1 R2 Hfs.
    rewrite (load_headers _ _ _ z1 z2) by done. by eexists.
  - intros fs file_path num_cols Hfs.
    rewrite (init_file_run _ _ _ _ Hfs). eexists.
    split; [vm_compute; reflexivity|done].
Qed.

Lemma C7_header_value_plus_one_witness :
  ∃ st', parse_header row initial_state 0 (lit "rows=-1" ++ [LF])
           (lit "rows=-1") = OK st'
         ∧ dimension row (self_of st') = 0
         ∧ parsed row st' = true.
Proof.
  destruct (C7_header_value_plus_one row initial_state 0
              (lit "rows=-1" ++ [LF]) (lit "rows=-1") (lit "-1")
              eq_refl eq_refl eq_refl) as (Hok & _).
  destruct (Hok (-1) eq_refl ltac:(lia)) as (st' & H1 & _ & _ & H3 & H4 & _).
  exists st'. split_and!; [exact H1|exact (H3 eq_refl)|exact H4].
Defined.

(** C7 as stated fails: the header value that is a minus sign followed by
    4301 digits 1 is a syntactically valid integer below -1, and the
    header is rejected with the malformed-header failure of its line, not
    with the header-out-of-range failure. *)
Lemma C7_counterexample :
  _is_valid_int ("-"%char :: repeat "1"%char 4301) = true
  ∧ - digits_value (repeat "1"%char 4301) < -1
  ∧ load (lit "rows=" ++ "-"%char :: repeat "1"%char 4301 ++ [LF]
          ++ lit "cols=1" ++ [LF])
    = Raise (MalformedHeaderLine row 0)
  ∧ MalformedHeaderLine row 0 ≠ HeaderOutOfRange row.
Proof.
  split_and!; [vm_compute; reflexivity|by vm_compute
              |vm_compute; reflexivity|discriminate].
Qed.
